(** * Exodus landing page: a shallow embedding of [js/main.js]

    The script is UI glue: three closures ([Navigation], [WordRotation],
    [HeroImage]) holding private mutable variables, a handful of DOM
    elements reached through fixed selectors, and the host's timers.  The
    embedding makes that store explicit ([World]) and writes every function
    of the script as a computation over it in a small state-and-exception
    monad, so that early returns, [try]/[catch] and the callbacks queued
    with [setTimeout]/[setInterval] read as they do in the source. *)

From Stdlib Require Import ZArith QArith Qround Lia.
From stdpp Require Import gmap strings list fin_maps pretty.

Local Open Scope string_scope.
Local Open Scope list_scope.
Local Open Scope Z_scope.

(** ** Configuration (the [CONFIG] object) *)

Record Config := {
  WORD_ROTATION_INTERVAL : Z;
  WORD_FADE_DURATION : Z;
  HERO_WORDS : list string;
  HERO_IMAGES : list string
}.

Definition CONFIG : Config := {|
  WORD_ROTATION_INTERVAL := 3000;
  WORD_FADE_DURATION := 300;
  HERO_WORDS :=
    [ "WhatsApp Bot"; "Telegram Bot"; "Discord Bot"; "Game Server";
      "AI Agent"; "Cron Job"; "Database"; "Web App/API";
      "Webhook Receiver"; "Automation Script" ];
  HERO_IMAGES :=
    [ "images/hero-1.png"; "images/hero-2.png";
      "images/hero-3.png"; "images/hero-4.png" ]
|}.

(** ** The host: DOM elements, listeners, timers *)

(** An element is named by the selector that reaches it; the closures of
    the script capture such a reference, never a copy of the element. *)
Definition ElemRef := string.

(** The two listeners the script registers: [toggleMenu] itself (on the
    trigger) and the arrow function [() => { if (isMenuOpen) toggleMenu() }]
    (on every link of the side menu). *)
Inductive Handler := HToggleMenu | HCloseIfOpen.

Global Instance Handler_eq_dec : EqDecision Handler.
Proof. solve_decision. Defined.

Record Element := {
  classList : list string;          (* DOMTokenList, in document order *)
  attributes : gmap string string;  (* aria-expanded, src, ... *)
  textContent : string;
  style : gmap string string;       (* opacity, transition *)
  clickListeners : list Handler;
  anchors : list (list Handler)     (* the [a] descendants, by their listeners *)
}.

(** The two callbacks the script hands to the host's timers:
    [() => rotateNext(rotatingWordElement)] and the body of the delayed
    half of [updateWord].  [newWord] is [None] when the script passes
    [undefined]. *)
Inductive Callback :=
  | CbRotate (element : ElemRef)
  | CbFade (element : ElemRef) (newWord : option string).

Record Timer := {
  repeat : bool;      (* true for setInterval, false for setTimeout *)
  delay : Z;
  callback : Callback
}.

Inductive LogEntry :=
  | Warn (msg : string)
  | Error (msg : string) (error : string).

Record World := {
  document : gmap string Element;    (* what querySelector finds *)
  isMenuOpen : bool;                 (* Navigation's closure *)
  currentIndex : Z;                  (* WordRotation's closure *)
  intervalId : option positive;      (* WordRotation's closure; None is null *)
  timers : gmap positive Timer;      (* the host's map of active timers *)
  console : list LogEntry;
  random : nat -> Q;                 (* the values Math.random() will return *)
  randomCalls : nat;                 (* how many of them were consumed *)
  imageLoads : list string           (* sources given to detached Image objects *)
}.

(** Field updates. *)
Definition set_document (f : gmap string Element -> gmap string Element) (w : World) : World :=
  {| document := f (document w); isMenuOpen := isMenuOpen w;
     currentIndex := currentIndex w; intervalId := intervalId w;
     timers := timers w; console := console w; random := random w;
     randomCalls := randomCalls w; imageLoads := imageLoads w |}.

Definition set_isMenuOpen (b : bool) (w : World) : World :=
  {| document := document w; isMenuOpen := b;
     currentIndex := currentIndex w; intervalId := intervalId w;
     timers := timers w; console := console w; random := random w;
     randomCalls := randomCalls w; imageLoads := imageLoads w |}.

Definition set_currentIndex (i : Z) (w : World) : World :=
  {| document := document w; isMenuOpen := isMenuOpen w;
     currentIndex := i; intervalId := intervalId w;
     timers := timers w; console := console w; random := random w;
     randomCalls := randomCalls w; imageLoads := imageLoads w |}.

Definition set_intervalId (i : option positive) (w : World) : World :=
  {| document := document w; isMenuOpen := isMenuOpen w;
     currentIndex := currentIndex w; intervalId := i;
     timers := timers w; console := console w; random := random w;
     randomCalls := randomCalls w; imageLoads := imageLoads w |}.

Definition set_timers (f : gmap positive Timer -> gmap positive Timer) (w : World) : World :=
  {| document := document w; isMenuOpen := isMenuOpen w;
     currentIndex := currentIndex w; intervalId := intervalId w;
     timers := f (timers w); console := console w; random := random w;
     randomCalls := randomCalls w; imageLoads := imageLoads w |}.

Definition set_console (f : list LogEntry -> list LogEntry) (w : World) : World :=
  {| document := document w; isMenuOpen := isMenuOpen w;
     currentIndex := currentIndex w; intervalId := intervalId w;
     timers := timers w; console := f (console w); random := random w;
     randomCalls := randomCalls w; imageLoads := imageLoads w |}.

Definition set_randomCalls (n : nat) (w : World) : World :=
  {| document := document w; isMenuOpen := isMenuOpen w;
     currentIndex := currentIndex w; intervalId := intervalId w;
     timers := timers w; console := console w; random := random w;
     randomCalls := n; imageLoads := imageLoads w |}.

Definition set_imageLoads (f : list string -> list string) (w : World) : World :=
  {| document := document w; isMenuOpen := isMenuOpen w;
     currentIndex := currentIndex w; intervalId := intervalId w;
     timers := timers w; console := console w; random := random w;
     randomCalls := randomCalls w; imageLoads := f (imageLoads w) |}.

(** ** Computations: state plus exceptions

    A JavaScript call either returns or throws; in both cases the writes it
    made before stay made. *)
Inductive Outcome (A : Type) :=
  | Returned (a : A) (w : World)
  | Thrown (e : string) (w : World).
Arguments Returned {A} a w.
Arguments Thrown {A} e w.

Definition M (A : Type) := World -> Outcome A.

Definition ret {A} (a : A) : M A := fun w => Returned a w.

Definition bind {A B} (m : M A) (k : A -> M B) : M B :=
  fun w => match m w with
           | Returned a w' => k a w'
           | Thrown e w' => Thrown e w'
           end.

Definition throw {A} (e : string) : M A := fun w => Thrown e w.

(** [try { body } catch (error) { handler(error) }] *)
Definition try_catch {A} (body : M A) (handler : string -> M A) : M A :=
  fun w => match body w with
           | Returned a w' => Returned a w'
           | Thrown e w' => handler e w'
           end.

Definition gets {A} (f : World -> A) : M A := fun w => Returned (f w) w.
Definition modify (f : World -> World) : M unit := fun w => Returned tt (f w).

Declare Scope js_scope.
Delimit Scope js_scope with js.
Notation "x <- m ;; k" := (bind m (fun x => k))
  (at level 100, m at next level, k at level 200, right associativity) : js_scope.
Notation "m ;; k" := (bind m (fun _ => k))
  (at level 100, k at level 200, right associativity) : js_scope.
Local Open Scope js_scope.

(** The world a computation ends in, whichever way it ends. *)
Definition world_of {A} (o : Outcome A) : World :=
  match o with Returned _ w => w | Thrown _ w => w end.

Definition returns {A} (o : Outcome A) : bool :=
  match o with Returned _ _ => true | Thrown _ _ => false end.

(** ** Host primitives *)

Definition console_warn (msg : string) : M unit :=
  modify (set_console (fun l => l ++ [Warn msg])).

Definition console_error (msg error : string) : M unit :=
  modify (set_console (fun l => l ++ [Error msg error])).

(** [Math.random()]: the next value of the source. *)
Definition Math_random : M Q :=
  fun w => Returned (random w (randomCalls w)) (set_randomCalls (S (randomCalls w)) w).

(** [array[i]] for a number [i]: [undefined] (here [None]) off the array. *)
Definition js_index {A} (array : list A) (i : Z) : option A :=
  if i <? 0 then None else array !! Z.to_nat i.

(** [a % b] on integers: the sign follows the dividend. *)
Definition js_rem (a b : Z) : Z := Z.rem a b.

(** Writes through an element reference. *)
Definition update_element (el : ElemRef) (f : Element -> Element) : M unit :=
  modify (set_document (alter f el)).

Definition set_classList (l : list string) (e : Element) : Element :=
  {| classList := l; attributes := attributes e; textContent := textContent e;
     style := style e; clickListeners := clickListeners e; anchors := anchors e |}.

Definition set_attributes (a : gmap string string) (e : Element) : Element :=
  {| classList := classList e; attributes := a; textContent := textContent e;
     style := style e; clickListeners := clickListeners e; anchors := anchors e |}.

Definition set_textContent (s : string) (e : Element) : Element :=
  {| classList := classList e; attributes := attributes e; textContent := s;
     style := style e; clickListeners := clickListeners e; anchors := anchors e |}.

Definition set_style (s : gmap string string) (e : Element) : Element :=
  {| classList := classList e; attributes := attributes e; textContent := textContent e;
     style := s; clickListeners := clickListeners e; anchors := anchors e |}.

Definition set_clickListeners (l : list Handler) (e : Element) : Element :=
  {| classList := classList e; attributes := attributes e; textContent := textContent e;
     style := style e; clickListeners := l; anchors := anchors e |}.

Definition set_anchors (l : list (list Handler)) (e : Element) : Element :=
  {| classList := classList e; attributes := attributes e; textContent := textContent e;
     style := style e; clickListeners := clickListeners e; anchors := l |}.

Definition has_class (token : string) (e : Element) : bool :=
  bool_decide (token ∈ classList e).

(** [element.classList.toggle(token, force)]: with [force] the token is
    added (at the end, unless it is there), without it removed. *)
Definition classList_toggle (token : string) (force : bool) (e : Element) : Element :=
  if force
  then (if has_class token e then e else set_classList (classList e ++ [token]) e)
  else set_classList (filter (fun t => t ≠ token) (classList e)) e.

(** [String(b)] for a boolean, as [setAttribute] stores it. *)
Definition string_of_bool (b : bool) : string := if b then "true" else "false".

Definition setAttribute (name value : string) (e : Element) : Element :=
  set_attributes (<[name := value]> (attributes e)) e.

(** Assigning to [textContent]: [undefined] is written as the empty string. *)
Definition assign_textContent (v : option string) (e : Element) : Element :=
  set_textContent (default EmptyString v) e.

(** Assigning to [src]: [undefined] is written as its name. *)
Definition assign_src (v : option string) (e : Element) : Element :=
  setAttribute "src" (default "undefined" v) e.

Definition assign_style (property value : string) (e : Element) : Element :=
  set_style (<[property := value]> (style e)) e.

(** [element.addEventListener("click", h)].  Registering the same function
    object again is ignored by the host; a new arrow function is a new
    listener each time. *)
Definition addClickListener (h : Handler) (e : Element) : Element :=
  match h with
  | HToggleMenu =>
      if bool_decide (h ∈ clickListeners e) then e
      else set_clickListeners (clickListeners e ++ [h]) e
  | HCloseIfOpen => set_clickListeners (clickListeners e ++ [h]) e
  end.

(** A handle for a new timer: the host picks an integer greater than zero
    that names no active timer. *)
Definition new_timer_id (w : World) : positive := fresh (dom (timers w)).

Definition setTimeout (cb : Callback) (ms : Z) : M positive :=
  fun w => let id := new_timer_id w in
           Returned id (set_timers (<[id := {| repeat := false; delay := ms; callback := cb |}]>) w).

Definition setInterval (cb : Callback) (ms : Z) : M positive :=
  fun w => let id := new_timer_id w in
           Returned id (set_timers (<[id := {| repeat := true; delay := ms; callback := cb |}]>) w).

(** [clearInterval(id)] removes the entry, whichever call created it. *)
Definition clearInterval (id : positive) : M unit :=
  modify (set_timers (delete id)).

(** Running [f] on every item, in order ([Array.prototype.forEach],
    [NodeList.prototype.forEach]). *)
Fixpoint forEach {A} (items : list A) (f : A -> M unit) : M unit :=
  match items with
  | [] => ret tt
  | x :: rest => f x ;; forEach rest f
  end.

(** ** Utility functions *)

(** [Math.floor(Math.random() * max)].  The value of the source is taken
    as the rational it denotes and the product is exact. *)
Definition getRandomInt (max : Z) : M Z :=
  r <- Math_random ;;
  ret (Qfloor (r * inject_Z max)).

Definition getRandomItem {A} (array : list A) : M (option A) :=
  i <- getRandomInt (Z.of_nat (length array)) ;;
  ret (js_index array i).

Definition querySelector (selector : string) : M (option ElemRef) :=
  gets (fun w => (fun _ => selector) <$> document w !! selector).

(** [$]: the lookup that warns. *)
Definition dollar (selector : string) : M (option ElemRef) :=
  element <- querySelector selector ;;
  (if element is None
   then console_warn ("Element not found: " +:+ selector)
   else ret tt) ;;
  ret element.

(** A link inside an element: the element and the position of the link
    among its [a] descendants. *)
Definition LinkRef : Type := ElemRef * nat.

(** [$$] as the script uses it: [context.querySelectorAll("a")]. *)
Definition dollar_dollar (selector : string) (context : ElemRef) : M (list LinkRef) :=
  gets (fun w =>
    match document w !! context with
    | Some e =>
        if bool_decide (selector = "a")
        then (fun i => (context, i)) <$> seq 0 (length (anchors e))
        else []
    | None => []
    end).

Definition addLinkListener (h : Handler) (link : LinkRef) : M unit :=
  update_element (fst link)
    (fun e => set_anchors (alter (fun ls => ls ++ [h]) (snd link) (anchors e)) e).

(** ** Navigation *)

Module Navigation.

Definition toggleMenu : M unit :=
  sideMenu <- dollar "#sideMenu" ;;
  navCta <- dollar "#navCta" ;;
  match sideMenu, navCta with
  | Some sideMenu, Some navCta =>
      modify (fun w => set_isMenuOpen (negb (isMenuOpen w)) w) ;;
      open <- gets isMenuOpen ;;
      update_element sideMenu (classList_toggle "active" open) ;;
      update_element navCta (classList_toggle "active" open) ;;
      update_element navCta (setAttribute "aria-expanded" (string_of_bool open))
  | _, _ => ret tt
  end.

(** The listener put on every link. *)
Definition closeIfOpen : M unit :=
  open <- gets isMenuOpen ;;
  if open then toggleMenu else ret tt.

Definition closeMenuOnLinkClick : M unit :=
  sideMenu <- dollar "#sideMenu" ;;
  match sideMenu with
  | None => ret tt
  | Some sideMenu =>
      links <- dollar_dollar "a" sideMenu ;;
      forEach links (addLinkListener HCloseIfOpen)
  end.

Definition init : M unit :=
  navCta <- dollar "#navCta" ;;
  match navCta with
  | None => ret tt
  | Some navCta =>
      update_element navCta (addClickListener HToggleMenu) ;;
      closeMenuOnLinkClick
  end.

End Navigation.

(** ** Word rotation *)

Module WordRotation.

Definition updateWord (cfg : Config) (element : ElemRef) (newWord : option string) : M unit :=
  update_element element (assign_style "opacity" "0") ;;
  _ <- setTimeout (CbFade element newWord) (WORD_FADE_DURATION cfg) ;;
  ret tt.

(** The body of the delayed arrow function of [updateWord]. *)
Definition fadeIn (element : ElemRef) (newWord : option string) : M unit :=
  update_element element (assign_textContent newWord) ;;
  update_element element (assign_style "opacity" "1").

(** [js_rem] is [%] for a list that is not empty; on an empty list the
    script computes [NaN], which this model does not represent. *)
Definition rotateNext (cfg : Config) (element : ElemRef) : M unit :=
  modify (fun w =>
    set_currentIndex
      (js_rem (currentIndex w + 1) (Z.of_nat (length (HERO_WORDS cfg)))) w) ;;
  i <- gets currentIndex ;;
  updateWord cfg element (js_index (HERO_WORDS cfg) i).

Definition start (cfg : Config) : M unit :=
  rotatingWordElement <- dollar "#rotatingWord" ;;
  match rotatingWordElement with
  | None => ret tt
  | Some rotatingWordElement =>
      r <- getRandomInt (Z.of_nat (length (HERO_WORDS cfg))) ;;
      modify (set_currentIndex r) ;;
      i <- gets currentIndex ;;
      update_element rotatingWordElement
        (assign_textContent (js_index (HERO_WORDS cfg) i)) ;;
      update_element rotatingWordElement
        (assign_style "transition"
           ("opacity " +:+ pretty (WORD_FADE_DURATION cfg) +:+ "ms ease")) ;;
      id <- setInterval (CbRotate rotatingWordElement) (WORD_ROTATION_INTERVAL cfg) ;;
      modify (set_intervalId (Some id))
  end.

(** [if (intervalId)]: a handle is a positive integer, so it is truthy
    exactly when it is not [null]. *)
Definition stop : M unit :=
  id <- gets intervalId ;;
  match id with
  | Some id =>
      clearInterval id ;;
      modify (set_intervalId None)
  | None => ret tt
  end.

End WordRotation.

(** ** Hero image and preloading *)

Module HeroImage.

Definition setRandomImage (cfg : Config) : M unit :=
  heroImgElement <- dollar "#heroImg" ;;
  match heroImgElement with
  | None => ret tt
  | Some heroImgElement =>
      randomImage <- getRandomItem (HERO_IMAGES cfg) ;;
      update_element heroImgElement (assign_src randomImage)
  end.

Definition init (cfg : Config) : M unit := setRandomImage cfg.

End HeroImage.

Definition preloadImages (cfg : Config) : M unit :=
  forEach (HERO_IMAGES cfg)
    (fun src => modify (set_imageLoads (fun l => l ++ [src]))).

(** ** Bootstrap *)

(** [initApp] over the four entry points it calls, so that the error
    boundary can be studied for steps that do throw. *)
Definition initApp_with (navigationInit wordRotationStart heroImageInit preload : M unit) : M unit :=
  try_catch
    (navigationInit ;;
     wordRotationStart ;;
     heroImageInit ;;
     preload)
    (fun error => console_error "Error initializing application:" error).

Definition initApp (cfg : Config) : M unit :=
  initApp_with Navigation.init (WordRotation.start cfg) (HeroImage.init cfg) (preloadImages cfg).

(** ** The event loop

    What the host may do next: run the callback of an active timer, deliver a
    click, unload the page; and what a caller of the exported interface
    may do: call [start] or [stop]. *)

Definition run_callback (cfg : Config) (cb : Callback) : M unit :=
  match cb with
  | CbRotate element => WordRotation.rotateNext cfg element
  | CbFade element newWord => WordRotation.fadeIn element newWord
  end.

(** Firing timer [id]: nothing if it was cleared; a one-shot timer
    leaves the map once its callback has run. *)
Definition fire_timer (cfg : Config) (id : positive) : M unit :=
  t <- gets (fun w => timers w !! id) ;;
  match t with
  | None => ret tt
  | Some t =>
      run_callback cfg (callback t) ;;
      if repeat t then ret tt else modify (set_timers (delete id))
  end.

Definition run_handler (h : Handler) : M unit :=
  match h with
  | HToggleMenu => Navigation.toggleMenu
  | HCloseIfOpen => Navigation.closeIfOpen
  end.

Definition click (element : ElemRef) : M unit :=
  ls <- gets (fun w => default [] (clickListeners <$> document w !! element)) ;;
  forEach ls run_handler.

Definition click_link (link : LinkRef) : M unit :=
  ls <- gets (fun w =>
          default [] (e ← document w !! fst link; anchors e !! snd link)) ;;
  forEach ls run_handler.

Inductive Action :=
  | ActInitApp
  | ActStart
  | ActStop
  | ActTimer (id : positive)
  | ActClick (element : ElemRef)
  | ActClickLink (link : LinkRef)
  | ActBeforeUnload.

Definition perform (cfg : Config) (a : Action) : M unit :=
  match a with
  | ActInitApp => initApp cfg
  | ActStart => WordRotation.start cfg
  | ActStop => WordRotation.stop
  | ActTimer id => fire_timer cfg id
  | ActClick element => click element
  | ActClickLink link => click_link link
  | ActBeforeUnload => WordRotation.stop
  end.

Definition exec (cfg : Config) (a : Action) (w : World) : World :=
  world_of (perform cfg a w).

Definition run (cfg : Config) (actions : list Action) (w : World) : World :=
  foldl (fun w a => exec cfg a w) w actions.

(** The page as the script finds it: its closures hold their initial
    values, no timer is active. *)
Definition freshly_loaded (w : World) : Prop :=
  isMenuOpen w = false ∧ currentIndex w = 0 ∧ intervalId w = None ∧ timers w = ∅.

(** A page built from a document and a random source. *)
Definition load (doc : gmap string Element) (rnd : nat -> Q) : World :=
  {| document := doc; isMenuOpen := false; currentIndex := 0; intervalId := None;
     timers := ∅; console := []; random := rnd; randomCalls := 0; imageLoads := [] |}.

Definition blank : Element :=
  {| classList := []; attributes := ∅; textContent := EmptyString; style := ∅;
     clickListeners := []; anchors := [] |}.

(** A sample page with all four elements, and a source stuck at 1/2. *)
Definition sample_document : gmap string Element :=
  <["#sideMenu" := set_anchors [[]; []] blank]>
  (<["#navCta" := blank]>
  (<["#rotatingWord" := blank]>
  (<["#heroImg" := blank]> ∅))).

Definition sample_page : World := load sample_document (fun _ => 1 # 2)%Q.

(** ** Observations *)


(** What the menu shows: the flag, the "active" class on the side menu and
    on the trigger, and the trigger's [aria-expanded]. *)
Definition menu_view (w : World) : bool * option bool * option bool * option (option string) :=
  (isMenuOpen w,
   has_class "active" <$> document w !! "#sideMenu",
   has_class "active" <$> document w !! "#navCta",
   (fun e => attributes e !! "aria-expanded") <$> document w !! "#navCta").

(** The page shows what the flag says. *)
Definition menu_consistent (w : World) : Prop :=
  menu_view w =
    (isMenuOpen w, Some (isMenuOpen w), Some (isMenuOpen w),
     Some (Some (string_of_bool (isMenuOpen w)))).


Definition warned (msgs : list LogEntry) (w : World) : World :=
  set_console (fun l => l ++ msgs) w.

Definition not_found (selector : string) : LogEntry :=
  Warn ("Element not found: " +:+ selector).

(** Two worlds that differ at most in what was written to the console. *)
Definition same_page (w w' : World) : Prop :=
  document w' = document w ∧ isMenuOpen w' = isMenuOpen w ∧
  currentIndex w' = currentIndex w ∧ intervalId w' = intervalId w ∧
  timers w' = timers w ∧ random w' = random w ∧
  randomCalls w' = randomCalls w ∧ imageLoads w' = imageLoads w.

(** Every active recurring timer is the one [intervalId] names. *)
Definition recurring_only_in_handle (w : World) : Prop :=
  ∀ id t, timers w !! id = Some t → repeat t = true → intervalId w = Some id.

Definition no_recurring_timer (w : World) : Prop :=
  ∀ id t, timers w !! id = Some t → repeat t = false.

(** The world [start] leaves when the rotating-word element is there. *)
Definition started (cfg : Config) (w : World) : World :=
  let r := Qfloor (random w (randomCalls w) * inject_Z (Z.of_nat (length (HERO_WORDS cfg)))) in
  let id := new_timer_id w in
  set_intervalId (Some id)
    (set_timers
       (<[id := {| repeat := true; delay := WORD_ROTATION_INTERVAL cfg;
                   callback := CbRotate "#rotatingWord" |}]>)
       (set_document
          (alter (assign_style "transition"
                    ("opacity " +:+ pretty (WORD_FADE_DURATION cfg) +:+ "ms ease"))
                 "#rotatingWord")
          (set_document
             (alter (assign_textContent (js_index (HERO_WORDS cfg) r)) "#rotatingWord")
             (set_currentIndex r (set_randomCalls (S (randomCalls w)) w))))).


(** [m] returns, and keeps [P], from every world where [P] holds. *)
Definition keeps {A} (P : World → Prop) (m : M A) : Prop :=
  ∀ w, P w → ∃ a w', m w = Returned a w' ∧ P w'.

(** [P] does not look at what is written into an element, nor at the
    menu flag, the console, the random source or the preloaded images. *)
Definition page_blind (P : World → Prop) : Prop :=
  (∀ f el w, P w → P (set_document (alter f el) w)) ∧
  (∀ b w, P w → P (set_isMenuOpen b w)) ∧
  (∀ f w, P w → P (set_console f w)) ∧
  (∀ n w, P w → P (set_randomCalls n w)) ∧
  (∀ f w, P w → P (set_imageLoads f w)).

(** Counting the runs of the rotation callback in a sequence of actions. *)
Definition is_rotation_firing (w : World) (a : Action) : bool :=
  match a with
  | ActTimer id =>
      match timers w !! id with
      | Some {| callback := CbRotate _ |} => true
      | _ => false
      end
  | _ => false
  end.

Fixpoint firings (cfg : Config) (actions : list Action) (w : World) : nat :=
  match actions with
  | [] => 0
  | a :: rest =>
      (if is_rotation_firing w a then 1 else 0) + firings cfg rest (exec cfg a w)
  end%nat.

(** The world [rotateNext] leaves, and the one the delayed half of
    [updateWord] leaves. *)
Definition rotated (cfg : Config) (element : ElemRef) (w : World) : World :=
  let i := js_rem (currentIndex w + 1) (Z.of_nat (length (HERO_WORDS cfg))) in
  set_timers
    (<[new_timer_id w := {| repeat := false; delay := WORD_FADE_DURATION cfg;
                            callback := CbFade element (js_index (HERO_WORDS cfg) i) |}]>)
    (set_document (alter (assign_style "opacity" "0") element)
       (set_currentIndex i w)).

Definition faded (element : ElemRef) (newWord : option string) (w : World) : World :=
  set_document (alter (assign_style "opacity" "1") element)
    (set_document (alter (assign_textContent newWord) element) w).

(** The actions that call [stop]. *)
Definition stops (a : Action) : bool :=
  match a with ActStop | ActBeforeUnload => true | _ => false end.

(** The actions that call [start]. *)
Definition restarts (a : Action) : bool :=
  match a with ActInitApp | ActStart => true | _ => false end.

(** The worlds the script can be in: a freshly loaded page, then any
    sequence of actions. *)
Definition reachable (cfg : Config) (w : World) : Prop :=
  ∃ w0 actions, freshly_loaded w0 ∧ w = run cfg actions w0.

(** [intervalId], when set, names an active recurring timer. *)
Definition handle_names_interval (w : World) : Prop :=
  ∀ id, intervalId w = Some id → ∃ t, timers w !! id = Some t ∧ repeat t = true.

(** Timer [id] is active, is [t], and is not the one [intervalId] names. *)
Definition orphaned (id : positive) (t : Timer) (w : World) : Prop :=
  timers w !! id = Some t ∧ repeat t = true ∧ intervalId w ≠ Some id.

(** The world [toggleMenu] leaves when both elements are there. *)
Definition toggled (w : World) : World :=
  let open := negb (isMenuOpen w) in
  set_document (alter (setAttribute "aria-expanded" (string_of_bool open)) "#navCta")
    (set_document (alter (classList_toggle "active" open) "#navCta")
       (set_document (alter (classList_toggle "active" open) "#sideMenu")
          (set_isMenuOpen open w))).

Definition present (selector : string) (w : World) : Prop :=
  is_Some (document w !! selector).

Definition active (id : positive) (t : Timer) (w : World) : Prop :=
  timers w !! id = Some t ∧ repeat t = true.

(** More sample pages: one without side menu, one without rotating word,
    one whose trigger already says that the menu is closed. *)
Definition page_without_menu : World :=
  load (delete "#sideMenu" sample_document) (fun _ => 1 # 2)%Q.

Definition page_without_word : World :=
  load (delete "#rotatingWord" sample_document) (fun _ => 1 # 2)%Q.

Definition consistent_page : World :=
  load (<["#navCta" := setAttribute "aria-expanded" "false" blank]> sample_document)
       (fun _ => 1 # 2)%Q.

(** A step that throws, to exercise the error boundary. *)
Definition failing_step : M unit := throw "TypeError: not a function".

(** A history in which [start] is only ever called on a stopped module. *)
Fixpoint guarded (cfg : Config) (actions : list Action) (w : World) : bool :=
  match actions with
  | [] => true
  | a :: rest =>
      (if restarts a then bool_decide (intervalId w = None) else true)
      && guarded cfg rest (exec cfg a w)
  end.

(** Reading the page: an attribute, a style property, the text of the
    element a selector reaches. *)
Definition attribute_of (selector name : string) (w : World) : option string :=
  e ← document w !! selector; attributes e !! name.

Definition style_of (selector property : string) (w : World) : option string :=
  e ← document w !! selector; style e !! property.

Definition text_of (selector : string) (w : World) : option string :=
  textContent <$> document w !! selector.

(** The variables and host state the menu code has no business with. *)
Definition rotation_state (w : World) : Z * option positive * gmap positive Timer :=
  (currentIndex w, intervalId w, timers w).

(** The element writes of the set-up code: the listeners [Navigation.init]
    registers and the source [HeroImage.init] assigns. *)
Inductive init_write : (Element → Element) → Prop :=
  | IW_listener : init_write (addClickListener HToggleMenu)
  | IW_link (i : nat) :
      init_write (fun e =>
        set_anchors (alter (fun ls => ls ++ [HCloseIfOpen]) i (anchors e)) e)
  | IW_src (v : option string) : init_write (assign_src v).

(** [P] does not look at what the set-up code writes, nor at the console,
    the random source or the preloaded images. *)
Definition setup_blind (P : World → Prop) : Prop :=
  (∀ f el w, init_write f → P w → P (set_document (alter f el) w)) ∧
  (∀ f w, P w → P (set_console f w)) ∧
  (∀ n w, P w → P (set_randomCalls n w)) ∧
  (∀ f w, P w → P (set_imageLoads f w)).

(** The actions that deliver a click. *)
Definition is_click (a : Action) : bool :=
  match a with ActClick _ | ActClickLink _ => true | _ => false end.

(** The two kinds of timer the script creates. *)
Definition rotation_timer (cfg : Config) : Timer :=
  {| repeat := true; delay := WORD_ROTATION_INTERVAL cfg;
     callback := CbRotate "#rotatingWord" |}.

Definition is_fade_timer (cfg : Config) (t : Timer) : Prop :=
  ∃ newWord, t = {| repeat := false; delay := WORD_FADE_DURATION cfg;
                    callback := CbFade "#rotatingWord" newWord |}.

(** Every active timer is one of the two, and [intervalId], when set,
    names an active rotation timer. *)
Definition timers_wellformed (cfg : Config) (w : World) : Prop :=
  (∀ id t, timers w !! id = Some t → t = rotation_timer cfg ∨ is_fade_timer cfg t) ∧
  (∀ id, intervalId w = Some id → timers w !! id = Some (rotation_timer cfg)).



(** The listeners on an element and on the links inside it. *)
Definition listeners_of (selector : string) (w : World) : list Handler :=
  default [] (clickListeners <$> document w !! selector).

Definition anchors_of (selector : string) (w : World) : list (list Handler) :=
  default [] (anchors <$> document w !! selector).

(** Everything of a world but its document. *)
Definition same_but_document (w w' : World) : Prop :=
  isMenuOpen w' = isMenuOpen w ∧ rotation_state w' = rotation_state w ∧
  console w' = console w ∧ random w' = random w ∧
  randomCalls w' = randomCalls w ∧ imageLoads w' = imageLoads w.



(** A page with none of the elements. *)
Definition bare_page : World := load ∅ (fun _ => 1 # 2)%Q.

(** Every active timer is a fade; and the cursor is [c]. *)
Definition only_fades_pending (w : World) : Prop :=
  ∀ id t, timers w !! id = Some t → ∃ element newWord, callback t = CbFade element newWord.

Definition halted_at (c : Z) (w : World) : Prop :=
  only_fades_pending w ∧ currentIndex w = c.

(** * Properties *)

(** ** The lookup helper *)

Lemma dollar_found selector e w :
  document w !! selector = Some e →
  dollar selector w = Returned (Some selector) w.
Proof.
  intros H. unfold dollar, querySelector, bind, gets. rewrite H. reflexivity.
Qed.

Lemma dollar_missing selector w :
  document w !! selector = None →
  dollar selector w = Returned None (warned [not_found selector] w).
Proof.
  intros H. unfold dollar, querySelector, bind, gets. rewrite H. reflexivity.
Qed.

Lemma warned_warned a b w : warned b (warned a w) = warned (a ++ b) w.
Proof.
  unfold warned, set_console. simpl. f_equal. by rewrite app_assoc.
Qed.

(** ** Random helpers *)


Lemma getRandomInt_eq max w :
  getRandomInt max w =
    Returned (Qfloor (random w (randomCalls w) * inject_Z max))
             (set_randomCalls (S (randomCalls w)) w).
Proof. reflexivity. Qed.

Lemma js_index_in_range {A} (array : list A) (i : Z) :
  0 <= i < Z.of_nat (length array) →
  ∃ x, js_index array i = Some x ∧ x ∈ array.
Proof.
  intros [H0 H1]. unfold js_index.
  destruct (Z.ltb_spec i 0) as [?|_]; [lia |].
  destruct (lookup_lt_is_Some_2 array (Z.to_nat i)) as [x Hx]; [lia |].
  exists x. split; [exact Hx |]. apply list_elem_of_lookup. eauto.
Qed.





(** ** Missing elements *)

(** C7.  If the side menu or the trigger is missing, [toggleMenu] returns
    having changed nothing of the page: [isMenuOpen] is not flipped, no
    element, timer or other variable is touched; only the lookup helper's
    warnings reach the console. *)
Theorem toggleMenu_missing_element (w : World) :
  document w !! "#sideMenu" = None ∨ document w !! "#navCta" = None →
  ∃ w' warnings,
    Navigation.toggleMenu w = Returned tt w' ∧
    isMenuOpen w' = isMenuOpen w ∧ same_page w w' ∧
    console w' = console w ++ warnings.
Proof.
  intros H. unfold Navigation.toggleMenu, bind.
  destruct (document w !! "#sideMenu") as [s|] eqn:Hs.
  - destruct H as [H|H]; [discriminate |].
    rewrite (dollar_found _ _ _ Hs), (dollar_missing _ _ H).
    do 2 eexists. repeat split; reflexivity.
  - rewrite (dollar_missing _ _ Hs).
    destruct (document w !! "#navCta") as [n|] eqn:Hn.
    + rewrite (dollar_found "#navCta" n) by exact Hn.
      do 2 eexists. repeat split; reflexivity.
    + rewrite (dollar_missing "#navCta") by exact Hn.
      exists (warned [not_found "#sideMenu"; not_found "#navCta"] w).
      eexists. split; [by rewrite warned_warned |]. repeat split; reflexivity.
Qed.

Lemma toggleMenu_missing_element_witness :
  ∃ w' warnings,
    Navigation.toggleMenu page_without_menu = Returned tt w' ∧
    isMenuOpen w' = isMenuOpen page_without_menu ∧
    same_page page_without_menu w' ∧
    console w' = console page_without_menu ++ warnings.
Proof.
  apply (toggleMenu_missing_element page_without_menu).
  left. vm_compute. reflexivity.
Defined.

(** C6.  If the rotating-word element is absent, [start] returns (it does
    not throw) having changed nothing of the page: no timer is added to
    the host's map and [intervalId] keeps its value, so a stopped module
    stays stopped; only the lookup helper's warning reaches the console. *)
Theorem start_missing_element (cfg : Config) (w : World) :
  document w !! "#rotatingWord" = None →
  ∃ w',
    WordRotation.start cfg w = Returned tt w' ∧
    timers w' = timers w ∧ intervalId w' = intervalId w ∧
    (intervalId w = None → intervalId w' = None) ∧
    same_page w w' ∧
    console w' = console w ++ [not_found "#rotatingWord"].
Proof.
  intros H. unfold WordRotation.start, bind. rewrite (dollar_missing _ _ H).
  eexists. split; [reflexivity |]. repeat split; try reflexivity. intros Hi; exact Hi.
Qed.

Lemma start_missing_element_witness :
  ∃ w',
    WordRotation.start CONFIG page_without_word = Returned tt w' ∧
    timers w' = timers page_without_word ∧
    intervalId w' = intervalId page_without_word ∧
    (intervalId page_without_word = None → intervalId w' = None) ∧
    same_page page_without_word w' ∧
    console w' = console page_without_word ++ [not_found "#rotatingWord"].
Proof.
  apply (start_missing_element CONFIG page_without_word).
  vm_compute. reflexivity.
Defined.

(** ** Stopping *)

Lemma stop_running id w :
  intervalId w = Some id →
  WordRotation.stop w = Returned tt (set_intervalId None (set_timers (delete id) w)).
Proof. intros H. unfold WordRotation.stop, bind, gets. rewrite H. reflexivity. Qed.

Lemma stop_stopped w :
  intervalId w = None → WordRotation.stop w = Returned tt w.
Proof. intros H. unfold WordRotation.stop, bind, gets. rewrite H. reflexivity. Qed.

(** C10.  [stop] returns and writes no variable of the script other than
    [intervalId]: [currentIndex], [isMenuOpen], the document, the console,
    the random source and the preloaded images are as before.  (On the
    host's side, the timer map loses at most the entry [intervalId] named.) *)
Theorem stop_frame (w : World) :
  ∃ w',
    WordRotation.stop w = Returned tt w' ∧
    currentIndex w' = currentIndex w ∧ isMenuOpen w' = isMenuOpen w ∧
    document w' = document w ∧ console w' = console w ∧
    random w' = random w ∧ randomCalls w' = randomCalls w ∧
    imageLoads w' = imageLoads w ∧
    intervalId w' = None ∧
    (∀ id, intervalId w ≠ Some id → timers w' !! id = timers w !! id).
Proof.
  destruct (intervalId w) as [id|] eqn:Hid.
  - eexists. split; [apply stop_running; exact Hid |].
    repeat split; try reflexivity.
    intros id' Hne. simpl. apply lookup_delete_ne. congruence.
  - eexists. split; [apply stop_stopped; exact Hid |].
    repeat split; try reflexivity. exact Hid.
Qed.

(** ** Toggling the menu *)

Lemma has_class_toggle token force e :
  has_class token (classList_toggle token force e) = force.
Proof.
  unfold classList_toggle. destruct force.
  - destruct (has_class token e) eqn:H; [exact H |].
    unfold has_class. simpl. apply bool_decide_eq_true. set_solver.
  - unfold has_class. simpl. apply bool_decide_eq_false.
    rewrite list_elem_of_filter. tauto.
Qed.

Lemma toggleMenu_present s n w :
  document w !! "#sideMenu" = Some s → document w !! "#navCta" = Some n →
  Navigation.toggleMenu w = Returned tt (toggled w).
Proof.
  intros Hs Hn. unfold Navigation.toggleMenu, bind.
  rewrite (dollar_found _ _ _ Hs), (dollar_found _ _ _ Hn). reflexivity.
Qed.

Lemma toggled_view s n w :
  document w !! "#sideMenu" = Some s → document w !! "#navCta" = Some n →
  let open := negb (isMenuOpen w) in
  menu_view (toggled w) = (open, Some open, Some open, Some (Some (string_of_bool open))).
Proof.
  intros Hs Hn open. unfold menu_view, toggled. simpl. fold open.
  rewrite !lookup_alter. repeat (case_decide; try done).
  rewrite Hs, Hn. simpl. rewrite has_class_toggle, lookup_insert_eq.
  change (has_class "active" (setAttribute "aria-expanded" (string_of_bool open)
                                (classList_toggle "active" open n)))
    with (has_class "active" (classList_toggle "active" open n)).
  by rewrite has_class_toggle.
Qed.

Lemma toggled_present sel w :
  is_Some (document w !! sel) → is_Some (document (toggled w) !! sel).
Proof.
  intros H. unfold toggled. simpl.
  rewrite !lookup_alter.
  repeat case_decide; simplify_eq; rewrite ?fmap_is_Some; exact H.
Qed.

(** C4 (as amended).  With both elements present, two calls of
    [toggleMenu] return, put [isMenuOpen] back to its value, and leave the
    "active" class on both elements and the trigger's [aria-expanded]
    showing that value; so class and attribute are back to what they were
    before the first call exactly when they agreed with [isMenuOpen] then. *)
Theorem toggleMenu_twice (w : World) :
  is_Some (document w !! "#sideMenu") → is_Some (document w !! "#navCta") →
  ∃ w2,
    (Navigation.toggleMenu ;; Navigation.toggleMenu) w = Returned tt w2 ∧
    isMenuOpen w2 = isMenuOpen w ∧
    menu_consistent w2 ∧
    (menu_view w2 = menu_view w ↔ menu_consistent w).
Proof.
  intros [s Hs] [n Hn].
  destruct (toggled_present "#sideMenu" w) as [s1 Hs1]; [by eexists |].
  destruct (toggled_present "#navCta" w) as [n1 Hn1]; [by eexists |].
  exists (toggled (toggled w)).
  assert (Hflag : isMenuOpen (toggled (toggled w)) = isMenuOpen w).
  { simpl. apply negb_involutive. }
  assert (Hview : menu_view (toggled (toggled w)) =
                  (isMenuOpen w, Some (isMenuOpen w), Some (isMenuOpen w),
                   Some (Some (string_of_bool (isMenuOpen w))))).
  { rewrite (toggled_view s1 n1) by assumption.
    change (isMenuOpen (toggled w)) with (negb (isMenuOpen w)).
    by rewrite negb_involutive. }
  split.
  { unfold bind. rewrite (toggleMenu_present s n) by assumption.
    apply (toggleMenu_present s1 n1); assumption. }
  split; [exact Hflag |].
  split.
  { unfold menu_consistent. rewrite Hflag. exact Hview. }
  unfold menu_consistent. rewrite Hview. split; intros H; by rewrite H.
Qed.

Lemma toggleMenu_twice_witness :
  menu_consistent consistent_page ∧
  ∃ w2,
    (Navigation.toggleMenu ;; Navigation.toggleMenu) consistent_page = Returned tt w2 ∧
    isMenuOpen w2 = isMenuOpen consistent_page ∧
    menu_consistent w2 ∧
    (menu_view w2 = menu_view consistent_page ↔ menu_consistent consistent_page).
Proof.
  split; [vm_compute; reflexivity |].
  apply (toggleMenu_twice consistent_page); eexists; vm_compute; reflexivity.
Defined.

(** C4 as stated fails on a page whose trigger carries no [aria-expanded]
    yet: both elements are present, and after two calls the attribute reads
    "false" where there was none. *)
Lemma toggleMenu_twice_counterexample :
  is_Some (document sample_page !! "#sideMenu") ∧
  is_Some (document sample_page !! "#navCta") ∧
  menu_view sample_page = (false, Some false, Some false, Some None) ∧
  menu_view (world_of ((Navigation.toggleMenu ;; Navigation.toggleMenu) sample_page))
    = (false, Some false, Some false, Some (Some "false")).
Proof.
  split; [eexists; vm_compute; reflexivity |].
  split; [eexists; vm_compute; reflexivity |].
  split; vm_compute; reflexivity.
Qed.

(** ** The error boundary of the bootstrap *)



(** The page after a clean bootstrap, and after one whose third step
    throws: the word is set and the interval runs in both, the image is set
    and preloaded only in the first, the error is logged only in the second. *)
Example initApp_sample :
  let clean := world_of (initApp CONFIG sample_page) in
  let broken := world_of (initApp_with Navigation.init (WordRotation.start CONFIG)
                            failing_step (preloadImages CONFIG) sample_page) in
  (intervalId clean, imageLoads clean, console clean)
    = (Some 1%positive, HERO_IMAGES CONFIG, []) ∧
  (intervalId broken, imageLoads broken, console broken)
    = (Some 1%positive, [],
       [Error "Error initializing application:" "TypeError: not a function"]).
Proof. split; vm_compute; reflexivity. Qed.

(** ** Starting *)

Lemma start_present cfg e w :
  document w !! "#rotatingWord" = Some e →
  WordRotation.start cfg w = Returned tt (started cfg w).
Proof.
  intros H. unfold WordRotation.start, bind. rewrite (dollar_found _ _ _ H). reflexivity.
Qed.

Lemma new_timer_id_unused w : timers w !! new_timer_id w = None.
Proof.
  unfold new_timer_id. apply (not_elem_of_dom (D := gset positive)).
  exact (is_fresh (dom (timers w))).
Qed.

Lemma started_present cfg sel w :
  is_Some (document w !! sel) → is_Some (document (started cfg w) !! sel).
Proof.
  intros H. unfold started. simpl. rewrite !lookup_alter.
  repeat case_decide; simplify_eq; rewrite ?fmap_is_Some; exact H.
Qed.

Lemma stop_idempotent w :
  (WordRotation.stop ;; WordRotation.stop) w = WordRotation.stop w.
Proof.
  unfold bind at 1. destruct (intervalId w) as [id|] eqn:Hid.
  - rewrite (stop_running id w Hid). by apply stop_stopped.
  - rewrite (stop_stopped w Hid). by apply stop_stopped.
Qed.

(** ** What every action keeps

    A small program logic: [keeps P m] composes along the structure of the
    script, so an invariant is checked once per primitive write. *)

Lemma keeps_ret {A} (P : World → Prop) (a : A) : keeps P (ret a).
Proof. intros w H. by exists a, w. Qed.

Lemma keeps_bind {A B} (P : World → Prop) (m : M A) (k : A → M B) :
  keeps P m → (∀ a, keeps P (k a)) → keeps P (bind m k).
Proof.
  intros Hm Hk w H. destruct (Hm w H) as (a & w1 & Hr & H1).
  unfold bind. rewrite Hr. by apply Hk.
Qed.

Lemma keeps_gets {A} (P : World → Prop) (f : World → A) : keeps P (gets f).
Proof. intros w H. by exists (f w), w. Qed.

Lemma keeps_modify (P : World → Prop) (f : World → World) :
  (∀ w, P w → P (f w)) → keeps P (modify f).
Proof. intros Hf w H. exists tt, (f w). split; [reflexivity | by apply Hf]. Qed.

Lemma keeps_forEach {A} (P : World → Prop) (items : list A) (f : A → M unit) :
  (∀ x, keeps P (f x)) → keeps P (forEach items f).
Proof.
  intros Hf. induction items as [|x rest IH]; simpl.
  - apply keeps_ret.
  - apply keeps_bind; [apply Hf | intros _; exact IH].
Qed.

Lemma keeps_try_catch {A} (P : World → Prop) (body : M A) (handler : string → M A) :
  keeps P body → keeps P (try_catch body handler).
Proof.
  intros Hb w H. destruct (Hb w H) as (a & w1 & Hr & H1).
  unfold try_catch. rewrite Hr. by exists a, w1.
Qed.

Lemma keeps_world_of {A} (P : World → Prop) (m : M A) w :
  keeps P m → P w → P (world_of (m w)).
Proof. intros Hm H. destruct (Hm w H) as (a & w1 & -> & H1). exact H1. Qed.

Section PageBlind.

Variable P : World → Prop.
Hypothesis blind : page_blind P.

Lemma keeps_update_element el f : keeps P (update_element el f).
Proof. apply keeps_modify. intros w. apply blind. Qed.

Lemma keeps_console_warn msg : keeps P (console_warn msg).
Proof. apply keeps_modify. intros w. apply blind. Qed.

Lemma keeps_dollar selector : keeps P (dollar selector).
Proof.
  unfold dollar, querySelector. apply keeps_bind; [apply keeps_gets |].
  intros [el|]; (apply keeps_bind; [| intros _; apply keeps_ret]).
  - apply keeps_ret.
  - apply keeps_console_warn.
Qed.

Lemma keeps_Math_random : keeps P Math_random.
Proof. intros w H. do 2 eexists. split; [reflexivity |]. by apply blind. Qed.

Lemma keeps_getRandomInt max : keeps P (getRandomInt max).
Proof.
  unfold getRandomInt. apply keeps_bind; [apply keeps_Math_random |].
  intros r. apply keeps_ret.
Qed.

Lemma keeps_toggleMenu : keeps P Navigation.toggleMenu.
Proof.
  unfold Navigation.toggleMenu.
  apply keeps_bind; [apply keeps_dollar | intros [s|]];
    (apply keeps_bind; [apply keeps_dollar | intros [n|]]);
    try apply keeps_ret.
  apply keeps_bind; [apply keeps_modify; intros w; apply blind | intros _].
  apply keeps_bind; [apply keeps_gets | intros open].
  repeat (apply keeps_bind; [apply keeps_update_element | intros _]).
  apply keeps_update_element.
Qed.

Lemma keeps_closeIfOpen : keeps P Navigation.closeIfOpen.
Proof.
  unfold Navigation.closeIfOpen. apply keeps_bind; [apply keeps_gets |].
  intros [|]; [apply keeps_toggleMenu | apply keeps_ret].
Qed.

Lemma keeps_Navigation_init : keeps P Navigation.init.
Proof.
  unfold Navigation.init, Navigation.closeMenuOnLinkClick.
  apply keeps_bind; [apply keeps_dollar | intros [n|]]; [| apply keeps_ret].
  apply keeps_bind; [apply keeps_update_element | intros _].
  apply keeps_bind; [apply keeps_dollar | intros [s|]]; [| apply keeps_ret].
  apply keeps_bind; [apply keeps_gets | intros links].
  apply keeps_forEach. intros link. apply keeps_update_element.
Qed.

Lemma keeps_HeroImage_init cfg : keeps P (HeroImage.init cfg).
Proof.
  unfold HeroImage.init, HeroImage.setRandomImage.
  apply keeps_bind; [apply keeps_dollar | intros [h|]]; [| apply keeps_ret].
  apply keeps_bind; [| intros img; apply keeps_update_element].
  unfold getRandomItem.
  apply keeps_bind; [apply keeps_getRandomInt | intros i; apply keeps_ret].
Qed.

Lemma keeps_preloadImages cfg : keeps P (preloadImages cfg).
Proof.
  unfold preloadImages. apply keeps_forEach. intros src.
  apply keeps_modify. intros w. apply blind.
Qed.

Lemma keeps_run_handler h : keeps P (run_handler h).
Proof. destruct h; [apply keeps_toggleMenu | apply keeps_closeIfOpen]. Qed.

Lemma keeps_click element : keeps P (click element).
Proof.
  unfold click. apply keeps_bind; [apply keeps_gets | intros ls].
  apply keeps_forEach, keeps_run_handler.
Qed.

Lemma keeps_click_link link : keeps P (click_link link).
Proof.
  unfold click_link. apply keeps_bind; [apply keeps_gets | intros ls].
  apply keeps_forEach, keeps_run_handler.
Qed.

Lemma keeps_fadeIn element newWord : keeps P (WordRotation.fadeIn element newWord).
Proof.
  unfold WordRotation.fadeIn.
  apply keeps_bind; [apply keeps_update_element | intros _; apply keeps_update_element].
Qed.

(** An invariant of the operations that touch timers is an invariant
    of every action that runs them. *)
Lemma keeps_perform cfg a :
  (restarts a = true → keeps P (WordRotation.start cfg)) →
  (stops a = true → keeps P WordRotation.stop) →
  (∀ id, a = ActTimer id → keeps P (fire_timer cfg id)) →
  keeps P (perform cfg a).
Proof.
  intros Hstart Hstop Hfire. destruct a as [| | |id|el|link|]; simpl.
  - unfold initApp, initApp_with. apply keeps_try_catch.
    apply keeps_bind; [apply keeps_Navigation_init | intros _].
    apply keeps_bind; [by apply Hstart | intros _].
    apply keeps_bind; [apply keeps_HeroImage_init | intros _].
    apply keeps_preloadImages.
  - by apply Hstart.
  - by apply Hstop.
  - by apply Hfire.
  - apply keeps_click.
  - apply keeps_click_link.
  - by apply Hstop.
Qed.

Lemma keeps_start cfg :
  (∀ i w, P w → P (set_currentIndex i w)) →
  (∀ t w, P w → repeat t = true →
     P (set_intervalId (Some (new_timer_id w)) (set_timers (<[new_timer_id w := t]>) w))) →
  keeps P (WordRotation.start cfg).
Proof.
  intros Hidx Hnew. unfold WordRotation.start.
  apply keeps_bind; [apply keeps_dollar | intros [el|]]; [| apply keeps_ret].
  apply keeps_bind; [apply keeps_getRandomInt | intros r].
  apply keeps_bind; [apply keeps_modify, Hidx | intros _].
  apply keeps_bind; [apply keeps_gets | intros i].
  do 2 (apply keeps_bind; [apply keeps_update_element | intros _]).
  intros w H. do 2 eexists. split; [reflexivity |]. by apply Hnew.
Qed.

End PageBlind.

Lemma keeps_stop (P : World → Prop) :
  (∀ id w, P w → intervalId w = Some id →
     P (set_intervalId None (set_timers (delete id) w))) →
  keeps P WordRotation.stop.
Proof.
  intros Hdel w H. destruct (intervalId w) as [id|] eqn:Hid.
  - rewrite (stop_running id w Hid). do 2 eexists. split; [reflexivity |]. by apply Hdel.
  - rewrite (stop_stopped w Hid). by exists tt, w.
Qed.

Lemma run_keeps (P : World → Prop) cfg (ok : Action → bool) :
  (∀ a, ok a = true → keeps P (perform cfg a)) →
  ∀ actions w, forallb ok actions = true → P w → P (run cfg actions w).
Proof.
  intros Hk actions. induction actions as [|a rest IH]; intros w Hok H; [exact H |].
  simpl in Hok. apply andb_prop in Hok as [Ha Hrest].
  simpl. apply IH; [exact Hrest |]. unfold exec. by apply keeps_world_of; [apply Hk |].
Qed.

(** ** The timer callbacks *)

Lemma rotateNext_eq cfg element w :
  WordRotation.rotateNext cfg element w = Returned tt (rotated cfg element w).
Proof. reflexivity. Qed.

Lemma fadeIn_eq element newWord w :
  WordRotation.fadeIn element newWord w = Returned tt (faded element newWord w).
Proof. reflexivity. Qed.

Lemma fire_timer_eq cfg id w :
  fire_timer cfg id w =
    Returned tt
      match timers w !! id with
      | None => w
      | Some t =>
          let w' := match callback t with
                    | CbRotate element => rotated cfg element w
                    | CbFade element newWord => faded element newWord w
                    end in
          if repeat t then w' else set_timers (delete id) w'
      end.
Proof.
  unfold fire_timer, bind, gets. destruct (timers w !! id) as [t|]; [| reflexivity].
  destruct t as [rep ms [element|element newWord]]; destruct rep; reflexivity.
Qed.

Lemma keeps_fire_timer (P : World → Prop) cfg id :
  (∀ w, P w → P (world_of (fire_timer cfg id w))) → keeps P (fire_timer cfg id).
Proof.
  intros HP w H. specialize (HP w H). rewrite fire_timer_eq in *.
  do 2 eexists. split; [reflexivity | exact HP].
Qed.

(** A firing never removes a recurring timer and never writes [intervalId]. *)
Lemma fire_timer_recurring cfg id w id' t' :
  timers w !! id' = Some t' → repeat t' = true →
  timers (world_of (fire_timer cfg id w)) !! id' = Some t'.
Proof.
  intros Ht' Hr'. rewrite fire_timer_eq. simpl.
  assert (Hnew : new_timer_id w ≠ id').
  { intros <-. rewrite new_timer_id_unused in Ht'. discriminate. }
  destruct (timers w !! id) as [t|] eqn:Ht; [| exact Ht'].
  assert (Hdel : repeat t = false → id ≠ id') by (intros Hr <-; congruence).
  destruct (callback t), (repeat t); simpl;
    rewrite ?lookup_delete_ne by auto; rewrite ?lookup_insert_ne by auto; exact Ht'.
Qed.

Lemma fire_timer_intervalId cfg id w :
  intervalId (world_of (fire_timer cfg id w)) = intervalId w.
Proof.
  rewrite fire_timer_eq. simpl. destruct (timers w !! id) as [t|]; [| reflexivity].
  destruct (callback t), (repeat t); reflexivity.
Qed.

(** ** Invariants of the event loop *)

Lemma present_page_blind selector : page_blind (present selector).
Proof.
  repeat split; try (intros; assumption).
  intros f el w H. unfold present in *. simpl. rewrite lookup_alter.
  case_decide; simplify_eq; rewrite ?fmap_is_Some; exact H.
Qed.

Lemma present_invariant cfg selector a : keeps (present selector) (perform cfg a).
Proof.
  apply keeps_perform; [apply present_page_blind | ..].
  - intros _. apply keeps_start; [apply present_page_blind | ..]; intros; assumption.
  - intros _. apply keeps_stop. intros; assumption.
  - intros id _. apply keeps_fire_timer. intros w H. rewrite fire_timer_eq. simpl.
    destruct (timers w !! id) as [t|]; [| exact H].
    assert (Hrot : ∀ el, present selector (rotated cfg el w)).
    { intros el. by apply (present_page_blind selector). }
    assert (Hfade : ∀ el nw, present selector (faded el nw w)).
    { intros el nw. by do 2 apply (present_page_blind selector). }
    destruct (callback t), (repeat t); first [exact (Hrot _) | exact (Hfade _ _)].
Qed.

Ltac solve_page_blind :=
  unfold page_blind;
  repeat match goal with |- _ ∧ _ => split end;
  intros; assumption.

Lemma active_page_blind id t : page_blind (active id t).
Proof. solve_page_blind. Qed.

Lemma unused_differs id t w : timers w !! id = Some t → new_timer_id w ≠ id.
Proof. intros H <-. rewrite new_timer_id_unused in H. discriminate. Qed.

(** Only a call of [stop] can remove a recurring timer. *)
Lemma active_invariant cfg id t a :
  stops a = false → keeps (active id t) (perform cfg a).
Proof.
  intros Hns. apply keeps_perform; [apply active_page_blind | ..].
  - intros _. apply keeps_start; [apply active_page_blind | intros; assumption |].
    intros t' w [H Hr] _. split; [| exact Hr]. simpl.
    rewrite lookup_insert_ne by (by eapply unused_differs). exact H.
  - congruence.
  - intros id' _. apply keeps_fire_timer. intros w [H Hr].
    split; [by apply fire_timer_recurring | exact Hr].
Qed.

Lemma orphaned_page_blind id t : page_blind (orphaned id t).
Proof. solve_page_blind. Qed.

(** No action at all removes a recurring timer that [intervalId] has
    stopped naming. *)
Lemma orphaned_invariant cfg id t a : keeps (orphaned id t) (perform cfg a).
Proof.
  apply keeps_perform; [apply orphaned_page_blind | ..].
  - intros _. apply keeps_start; [apply orphaned_page_blind | intros; assumption |].
    intros t' w (H & Hr & Hi) _.
    pose proof (unused_differs id t w H) as Hne.
    repeat split; simpl; [by rewrite lookup_insert_ne | exact Hr | congruence].
  - intros _. apply keeps_stop. intros id' w (H & Hr & Hi) Hid.
    repeat split; simpl; [| exact Hr | discriminate].
    rewrite lookup_delete_ne by congruence. exact H.
  - intros id' _. apply keeps_fire_timer. intros w (H & Hr & Hi).
    repeat split; [by apply fire_timer_recurring | exact Hr |].
    by rewrite fire_timer_intervalId.
Qed.

Lemma handle_names_interval_page_blind : page_blind handle_names_interval.
Proof. solve_page_blind. Qed.

Lemma handle_names_interval_invariant cfg a :
  keeps handle_names_interval (perform cfg a).
Proof.
  apply keeps_perform; [apply handle_names_interval_page_blind | ..].
  - intros _. apply keeps_start;
      [apply handle_names_interval_page_blind | intros; assumption |].
    intros t w _ Hr id Hid. simpl in *. simplify_eq.
    exists t. by rewrite lookup_insert_eq.
  - intros _. apply keeps_stop. intros id w _ _ id' Hid. discriminate.
  - intros id _. apply keeps_fire_timer. intros w H id' Hid.
    rewrite fire_timer_intervalId in Hid. destruct (H id' Hid) as (t & Ht & Hr).
    exists t. split; [by apply fire_timer_recurring | exact Hr].
Qed.

Lemma reachable_handle_names_interval cfg w :
  reachable cfg w → handle_names_interval w.
Proof.
  intros (w0 & actions & (_ & _ & Hid & _) & ->).
  apply (run_keeps handle_names_interval cfg (fun _ => true)).
  - intros a _. apply handle_names_interval_invariant.
  - by apply forallb_forall.
  - intros id Hid'. congruence.
Qed.

Lemma forallb_all_true {A} (l : list A) : forallb (fun _ => true) l = true.
Proof. by apply forallb_forall. Qed.

(** ** Starting twice *)

(** C9.  After [start] (rotating-word element present) has put handle
    [id1] into [intervalId], let anything happen except a call of [stop],
    and call [start] again: it returns with a new handle [id2 ≠ id1] in
    [intervalId], and from then on, whatever actions follow (calls of
    [stop] included), the first interval is still in the host's map of
    active timers and [intervalId] never names it again. *)
Theorem double_start_orphans_interval (cfg : Config) (w : World) :
  present "#rotatingWord" w →
  ∃ w1 id1,
    WordRotation.start cfg w = Returned tt w1 ∧ intervalId w1 = Some id1 ∧
    let t1 := {| repeat := true; delay := WORD_ROTATION_INTERVAL cfg;
                 callback := CbRotate "#rotatingWord" |} in
    timers w1 !! id1 = Some t1 ∧
    ∀ between, forallb (fun a => negb (stops a)) between = true →
      ∃ w2 id2,
        WordRotation.start cfg (run cfg between w1) = Returned tt w2 ∧
        intervalId w2 = Some id2 ∧ id2 ≠ id1 ∧
        ∀ later,
          timers (run cfg later w2) !! id1 = Some t1 ∧
          intervalId (run cfg later w2) ≠ Some id1.
Proof.
  intros [e He].
  exists (started cfg w), (new_timer_id w).
  split; [by apply (start_present cfg e) |]. split; [reflexivity |].
  intros t1. split; [simpl; by rewrite lookup_insert_eq |].
  intros between Hbetween.
  set (w1 := started cfg w). set (w1' := run cfg between w1).
  assert (Hactive : active (new_timer_id w) t1 w1').
  { apply (run_keeps _ cfg (fun a => negb (stops a))); [| exact Hbetween |].
    - intros a Ha. apply active_invariant. by destruct (stops a).
    - split; [simpl; by rewrite lookup_insert_eq | reflexivity]. }
  assert (Hpresent : present "#rotatingWord" w1').
  { apply (run_keeps _ cfg (fun _ => true)); [| apply forallb_all_true |].
    - intros a _. apply present_invariant.
    - apply started_present. by exists e. }
  destruct Hpresent as [e' He']. destruct Hactive as [Ht1 Hr1].
  exists (started cfg w1'), (new_timer_id w1').
  split; [by apply (start_present cfg e') |]. split; [reflexivity |].
  split; [by eapply unused_differs |].
  intros later.
  assert (Horph : orphaned (new_timer_id w) t1 (run cfg later (started cfg w1'))).
  { apply (run_keeps _ cfg (fun _ => true)); [| apply forallb_all_true |].
    - intros a _. apply orphaned_invariant.
    - pose proof (unused_differs _ _ _ Ht1) as Hne.
      repeat split; simpl; [by rewrite lookup_insert_ne | congruence]. }
  destruct Horph as (H & _ & Hi). by split.
Qed.

Lemma sample_page_present : present "#rotatingWord" sample_page.
Proof. eexists. vm_compute. reflexivity. Defined.

Lemma double_start_orphans_interval_witness :
  present "#rotatingWord" sample_page ∧
  ∃ w1 id1,
    WordRotation.start CONFIG sample_page = Returned tt w1 ∧ intervalId w1 = Some id1 ∧
    let t1 := {| repeat := true; delay := WORD_ROTATION_INTERVAL CONFIG;
                 callback := CbRotate "#rotatingWord" |} in
    timers w1 !! id1 = Some t1 ∧
    ∀ between, forallb (fun a => negb (stops a)) between = true →
      ∃ w2 id2,
        WordRotation.start CONFIG (run CONFIG between w1) = Returned tt w2 ∧
        intervalId w2 = Some id2 ∧ id2 ≠ id1 ∧
        ∀ later,
          timers (run CONFIG later w2) !! id1 = Some t1 ∧
          intervalId (run CONFIG later w2) ≠ Some id1.
Proof.
  split; [exact sample_page_present |].
  exact (double_start_orphans_interval CONFIG sample_page sample_page_present).
Defined.

(** ** Stopping during a fade *)

(** C8.  In every world the script can reach, [stop] returns and every
    one-shot timer that was pending is still pending afterwards: only the
    interval is cancelled.  And there is an execution (the page at 1/2:
    start shows "Cron Job"; the interval fires once and queues the swap to
    "Database" as timer 2; stop) in which the text is still "Cron Job" when
    [stop] has returned and becomes "Database" when the queued callback
    runs after it. *)
Theorem stop_spares_pending_fade :
  (∀ cfg w id t,
     reachable cfg w → timers w !! id = Some t → repeat t = false →
     ∃ w', WordRotation.stop w = Returned tt w' ∧ timers w' !! id = Some t) ∧
  (let w := run CONFIG [ActStart; ActTimer 1%positive] sample_page in
   let stopped := world_of (WordRotation.stop w) in
   let later := exec CONFIG (ActTimer 2%positive) stopped in
   reachable CONFIG w ∧
   timers w !! 2%positive =
     Some {| repeat := false; delay := 300;
             callback := CbFade "#rotatingWord" (Some "Database") |} ∧
   intervalId stopped = None ∧
   timers stopped !! 1%positive = None ∧
   textContent <$> document stopped !! "#rotatingWord" = Some "Cron Job" ∧
   textContent <$> document later !! "#rotatingWord" = Some "Database").
Proof.
  split.
  - intros cfg w id t Hreach Ht Hr.
    pose proof (reachable_handle_names_interval cfg w Hreach) as Hwf.
    destruct (intervalId w) as [iid|] eqn:Hid.
    + rewrite (stop_running iid w Hid). eexists. split; [reflexivity |]. simpl.
      destruct (Hwf iid Hid) as (ti & Hti & Hri).
      rewrite lookup_delete_ne; [exact Ht |]. intros ->. congruence.
    + rewrite (stop_stopped w Hid). by exists w.
  - split.
    { exists sample_page, [ActStart; ActTimer 1%positive].
      split; [| reflexivity]. repeat split. }
    repeat split; vm_compute; reflexivity.
Qed.

Lemma stop_spares_pending_fade_witness :
  let w := run CONFIG [ActStart; ActTimer 1%positive] sample_page in
  let t := {| repeat := false; delay := 300;
              callback := CbFade "#rotatingWord" (Some "Database") |} in
  ∃ w', WordRotation.stop w = Returned tt w' ∧ timers w' !! 2%positive = Some t.
Proof.
  intros w t.
  apply (proj1 stop_spares_pending_fade CONFIG w 2%positive t).
  - exists sample_page, [ActStart; ActTimer 1%positive].
    split; [| reflexivity]. repeat split.
  - vm_compute. reflexivity.
  - reflexivity.
Defined.

(** ** The rotation cursor *)

Lemma js_index_nonneg {A} (array : list A) (i : Z) :
  0 <= i → js_index array i = array !! Z.to_nat i.
Proof. intros H. unfold js_index. destruct (Z.ltb_spec i 0); [lia | reflexivity]. Qed.

Lemma currentIndex_page_blind c : page_blind (fun w => currentIndex w = c).
Proof. solve_page_blind. Qed.

(** One action that is not a restart moves the cursor by one, cyclically,
    if it runs the rotation callback, and leaves it alone otherwise. *)
Lemma exec_currentIndex cfg a w :
  let N := Z.of_nat (length (HERO_WORDS cfg)) in
  1 <= N → restarts a = false → 0 <= currentIndex w →
  currentIndex (exec cfg a w) =
    if is_rotation_firing w a then (currentIndex w + 1) mod N else currentIndex w.
Proof.
  intros N HN Ha Hc. unfold exec.
  destruct a as [| | |id|el|link|]; try discriminate; simpl.
  - apply (keeps_world_of (fun w' => currentIndex w' = currentIndex w));
      [apply keeps_stop; intros; assumption | reflexivity].
  - rewrite fire_timer_eq. simpl.
    destruct (timers w !! id) as [[rep ms [el|el nw]]|]; [| | reflexivity];
      destruct rep; simpl; try reflexivity;
      unfold js_rem; apply Z.rem_mod_nonneg; lia.
  - apply (keeps_world_of (fun w' => currentIndex w' = currentIndex w));
      [apply keeps_click, currentIndex_page_blind | reflexivity].
  - apply (keeps_world_of (fun w' => currentIndex w' = currentIndex w));
      [apply keeps_click_link, currentIndex_page_blind | reflexivity].
  - apply (keeps_world_of (fun w' => currentIndex w' = currentIndex w));
      [apply keeps_stop; intros; assumption | reflexivity].
Qed.

Lemma run_currentIndex cfg actions :
  let N := Z.of_nat (length (HERO_WORDS cfg)) in
  1 <= N → forallb (fun a => negb (restarts a)) actions = true →
  ∀ w, 0 <= currentIndex w < N →
    currentIndex (run cfg actions w) =
      (currentIndex w + Z.of_nat (firings cfg actions w)) mod N.
Proof.
  intros N HN. induction actions as [|a rest IH]; intros Hok w Hc.
  - simpl. rewrite Z.add_0_r. symmetry. by apply Z.mod_small.
  - simpl in Hok. apply andb_prop in Hok as [Ha Hrest].
    apply negb_true_iff in Ha.
    pose proof (exec_currentIndex cfg a w HN Ha (proj1 Hc)) as Hstep.
    fold N in Hstep.
    change (run cfg (a :: rest) w) with (run cfg rest (exec cfg a w)).
    change (firings cfg (a :: rest) w)
      with ((if is_rotation_firing w a then 1 else 0)
            + firings cfg rest (exec cfg a w))%nat.
    assert (Hc' : 0 <= currentIndex (exec cfg a w) < N).
    { rewrite Hstep. destruct (is_rotation_firing w a); [| exact Hc].
      apply Z.mod_pos_bound. lia. }
    rewrite (IH Hrest _ Hc'), Hstep.
    destruct (is_rotation_firing w a).
    + rewrite Zplus_mod_idemp_l. f_equal. lia.
    + f_equal.
Qed.



(** The cursor on the sample page: 5 at start, 7 after two firings of the
    interval with a fade and a click in between. *)
Example rotation_index_sample :
  let w0 := exec CONFIG ActStart sample_page in
  let actions := [ActTimer 1; ActTimer 2; ActClick "#navCta"; ActTimer 1]%positive in
  currentIndex w0 = 5 ∧ firings CONFIG actions w0 = 2%nat ∧
  currentIndex (run CONFIG actions w0) = 7.
Proof. repeat split; vm_compute; reflexivity. Qed.

(** ** Nothing in the script throws *)

Lemma always_page_blind : page_blind (fun _ => True).
Proof. solve_page_blind. Qed.

(** On this model of the host every action of the script returns; the
    handler of [initApp] is there for failures of the host itself. *)
Lemma perform_returns cfg a w : returns (perform cfg a w) = true.
Proof.
  assert (H : keeps (fun _ => True) (perform cfg a)).
  { apply keeps_perform; [apply always_page_blind | ..].
    - intros _. apply keeps_start; [apply always_page_blind | done | done].
    - intros _. by apply keeps_stop.
    - intros id _. by apply keeps_fire_timer. }
  destruct (H w I) as (x & w' & -> & _). reflexivity.
Qed.

(** ** Stop, start, stop *)

Lemma fire_timer_recurring_inv cfg id w id' t' :
  timers (world_of (fire_timer cfg id w)) !! id' = Some t' → repeat t' = true →
  timers w !! id' = Some t'.
Proof.
  rewrite fire_timer_eq. simpl. intros Ht' Hr'.
  destruct (timers w !! id) as [t|] eqn:Ht; [| exact Ht'].
  destruct (callback t), (repeat t); simpl in Ht';
    repeat match type of Ht' with
           | delete _ _ !! _ = Some _ => apply lookup_delete_Some in Ht' as [_ Ht']
           | <[_:=_]> _ !! _ = Some _ =>
               apply lookup_insert_Some in Ht' as [[_ <-]|[_ Ht']]; [discriminate |]
           end; exact Ht'.
Qed.

Lemma recurring_only_in_handle_page_blind : page_blind recurring_only_in_handle.
Proof. solve_page_blind. Qed.

Lemma stopped_page_blind :
  page_blind (fun w => recurring_only_in_handle w ∧ intervalId w = None).
Proof. solve_page_blind. Qed.

Lemma start_when_stopped cfg w :
  recurring_only_in_handle w → intervalId w = None →
  ∃ w', WordRotation.start cfg w = Returned tt w' ∧ recurring_only_in_handle w'.
Proof.
  intros Hrec Hnone. destruct (document w !! "#rotatingWord") as [e|] eqn:He.
  - rewrite (start_present cfg e w He). eexists. split; [reflexivity |].
    intros id t Ht Hr. simpl in *.
    apply lookup_insert_Some in Ht as [[<- _]|[_ Ht]]; [reflexivity |].
    specialize (Hrec id t Ht Hr). congruence.
  - unfold WordRotation.start, bind. rewrite (dollar_missing _ _ He).
    eexists. split; [reflexivity | exact Hrec].
Qed.

Lemma recurring_only_in_handle_step cfg a w :
  (restarts a = true → intervalId w = None) →
  recurring_only_in_handle w → recurring_only_in_handle (exec cfg a w).
Proof.
  intros Hguard Hrec. unfold exec.
  destruct (restarts a) eqn:Ha.
  - specialize (Hguard eq_refl). destruct a; try discriminate; simpl.
    + unfold initApp, initApp_with, try_catch, bind.
      destruct (keeps_Navigation_init _ stopped_page_blind w (conj Hrec Hguard))
        as ([] & w1 & -> & Hrec1 & Hnone1).
      destruct (start_when_stopped cfg w1 Hrec1 Hnone1) as (w2 & -> & Hrec2).
      destruct (keeps_HeroImage_init _ recurring_only_in_handle_page_blind cfg w2 Hrec2)
        as ([] & w3 & -> & Hrec3).
      destruct (keeps_preloadImages _ recurring_only_in_handle_page_blind cfg w3 Hrec3)
        as ([] & w4 & -> & Hrec4).
      exact Hrec4.
    + by destruct (start_when_stopped cfg w Hrec Hguard) as (w' & -> & Hrec').
  - apply keeps_world_of; [| exact Hrec].
    apply keeps_perform; [apply recurring_only_in_handle_page_blind | congruence | ..].
    + intros _. apply keeps_stop. intros id v Hv Hid id' t Ht Hr. simpl in *.
      apply lookup_delete_Some in Ht as [Hne Ht]. specialize (Hv id' t Ht Hr). congruence.
    + intros id _. apply keeps_fire_timer. intros v Hv id' t Ht Hr.
      rewrite fire_timer_intervalId. apply (Hv id' t); [| exact Hr].
      by eapply fire_timer_recurring_inv.
Qed.

(** From a freshly loaded page, a history that never starts a running
    rotation keeps every recurring timer under [intervalId]: the premise of
    [stop_start_stop] holds after it. *)
Lemma guarded_recurring_only_in_handle cfg actions w :
  recurring_only_in_handle w → guarded cfg actions w = true →
  recurring_only_in_handle (run cfg actions w).
Proof.
  revert w. induction actions as [|a rest IH]; intros w Hrec Hg; [exact Hrec |].
  simpl in Hg. apply andb_prop in Hg as [Ha Hrest].
  change (run cfg (a :: rest) w) with (run cfg rest (exec cfg a w)).
  apply IH; [| exact Hrest]. apply recurring_only_in_handle_step; [| exact Hrec].
  intros Hr. rewrite Hr in Ha. by apply bool_decide_eq_true in Ha.
Qed.

Lemma freshly_loaded_recurring_only_in_handle w :
  freshly_loaded w → recurring_only_in_handle w.
Proof. intros (_ & _ & _ & Ht) id t H. rewrite Ht, lookup_empty in H. discriminate. Qed.

(** Stop, start, stop from a state whose recurring timers all sit under
    [intervalId]. *)
Lemma stop_start_stop_from (cfg : Config) (w : World) :
  present "#rotatingWord" w →
  recurring_only_in_handle w →
  ∃ w3,
    (WordRotation.stop ;; WordRotation.start cfg ;; WordRotation.stop) w = Returned tt w3 ∧
    intervalId w3 = None ∧ no_recurring_timer w3.
Proof.
  intros [e He] Hrec.
  assert (H1 : ∃ w1, WordRotation.stop w = Returned tt w1 ∧
                     document w1 = document w ∧ no_recurring_timer w1).
  { destruct (intervalId w) as [id|] eqn:Hid.
    - eexists. split; [by apply stop_running |]. split; [reflexivity |].
      intros id' t Ht. simpl in Ht.
      destruct (decide (id = id')) as [->|Hne].
      + by rewrite lookup_delete_eq in Ht.
      + rewrite lookup_delete_ne in Ht by done.
        destruct (repeat t) eqn:Hr; [|reflexivity].
        specialize (Hrec id' t Ht Hr). congruence.
    - eexists. split; [by apply stop_stopped |]. split; [reflexivity |].
      intros id' t Ht. destruct (repeat t) eqn:Hr; [|reflexivity].
      specialize (Hrec id' t Ht Hr). congruence. }
  destruct H1 as (w1 & Hstop & Hdoc & Hnone).
  exists (set_intervalId None (set_timers (delete (new_timer_id w1)) (started cfg w1))).
  split.
  { unfold bind. rewrite Hstop.
    rewrite (start_present cfg e) by (by rewrite Hdoc).
    by apply stop_running. }
  split; [reflexivity |].
  intros id t Ht. simpl in Ht.
  rewrite delete_insert_eq in Ht.
  destruct (decide (new_timer_id w1 = id)) as [<-|Hne].
  - by rewrite lookup_delete_eq in Ht.
  - rewrite lookup_delete_ne in Ht by done. by apply (Hnone id).
Qed.

(** C3 (as amended).  After every history, from the freshly loaded page,
    in which [start] is never called while [intervalId] holds a handle:
    stop, then start with the rotating-word element present, then stop
    leaves no recurring timer in the host's map and [intervalId] cleared.
    And in every state [stop] on a stopped module changes nothing, so a
    second [stop] adds nothing to the first. *)
Theorem stop_start_stop (cfg : Config) (w0 : World) (history : list Action) :
  freshly_loaded w0 → guarded cfg history w0 = true →
  present "#rotatingWord" (run cfg history w0) →
  (∃ w3,
     (WordRotation.stop ;; WordRotation.start cfg ;; WordRotation.stop)
       (run cfg history w0) = Returned tt w3 ∧
     intervalId w3 = None ∧ no_recurring_timer w3) ∧
  (∀ v, intervalId v = None → WordRotation.stop v = Returned tt v) ∧
  (∀ v, (WordRotation.stop ;; WordRotation.stop) v = WordRotation.stop v).
Proof.
  intros Hfresh Hguard Hpresent.
  split; [| split; [exact stop_stopped | exact stop_idempotent]].
  apply stop_start_stop_from; [exact Hpresent |].
  apply guarded_recurring_only_in_handle; [| exact Hguard].
  by apply freshly_loaded_recurring_only_in_handle.
Qed.

Lemma stop_start_stop_witness :
  let history := [ActInitApp; ActTimer 1; ActTimer 2; ActStop; ActStart]%positive in
  freshly_loaded sample_page ∧ guarded CONFIG history sample_page = true ∧
  present "#rotatingWord" (run CONFIG history sample_page) ∧
  (∃ w3,
     (WordRotation.stop ;; WordRotation.start CONFIG ;; WordRotation.stop)
       (run CONFIG history sample_page) = Returned tt w3 ∧
     intervalId w3 = None ∧ no_recurring_timer w3) ∧
  (∀ v, intervalId v = None → WordRotation.stop v = Returned tt v) ∧
  (∀ v, (WordRotation.stop ;; WordRotation.stop) v = WordRotation.stop v).
Proof.
  intros history.
  assert (Hfresh : freshly_loaded sample_page) by (repeat split).
  assert (Hguard : guarded CONFIG history sample_page = true) by (vm_compute; reflexivity).
  assert (Hpresent : present "#rotatingWord" (run CONFIG history sample_page)).
  { eexists. vm_compute. reflexivity. }
  split; [exact Hfresh |]. split; [exact Hguard |]. split; [exact Hpresent |].
  exact (stop_start_stop CONFIG sample_page history Hfresh Hguard Hpresent).
Defined.

(** C3 as stated fails after a history in which [start] ran twice in a
    row: the first interval (handle 1) is still active after stop, start,
    stop, although [intervalId] is cleared. *)
Lemma stop_start_stop_counterexample :
  let w := run CONFIG [ActStart; ActStart] sample_page in
  let w3 := world_of ((WordRotation.stop ;; WordRotation.start CONFIG ;; WordRotation.stop) w) in
  freshly_loaded sample_page ∧ present "#rotatingWord" w ∧
  intervalId w3 = None ∧
  timers w3 !! 1%positive =
    Some {| repeat := true; delay := 3000; callback := CbRotate "#rotatingWord" |} ∧
  ¬ no_recurring_timer w3.
Proof.
  intros w w3.
  assert (Ht : timers w3 !! 1%positive =
               Some {| repeat := true; delay := 3000;
                       callback := CbRotate "#rotatingWord" |})
    by (vm_compute; reflexivity).
  split; [repeat split |].
  split; [eexists; vm_compute; reflexivity |].
  split; [vm_compute; reflexivity |].
  split; [exact Ht |].
  intros Hnone. specialize (Hnone _ _ Ht). discriminate.
Qed.

(** * Further properties of the script *)

(** ** The random helpers reach everything *)




(** ** Preloading *)

Lemma forEach_imageLoads (srcs : list string) (w : World) :
  ∃ w',
    forEach srcs (fun src => modify (set_imageLoads (fun l => l ++ [src]))) w
      = Returned tt w' ∧
    imageLoads w' = imageLoads w ++ srcs ∧
    same_page (set_imageLoads (fun _ => imageLoads w') w) w' ∧ console w' = console w.
Proof.
  revert w. induction srcs as [|src rest IH]; intros w.
  - exists w. simpl. rewrite app_nil_r. repeat split.
  - destruct (IH (set_imageLoads (fun l => l ++ [src]) w))
      as (w' & Hrun & Hloads & Hsame & Hconsole).
    exists w'. split; [exact Hrun |]. simpl in Hloads.
    split; [by rewrite Hloads, <- app_assoc |].
    split; [| exact Hconsole].
    destruct Hsame as (? & ? & ? & ? & ? & ? & ? & ?). by repeat split.
Qed.

(** X2.  [preloadImages] returns having created one image object per
    configured path, in the order of [HERO_IMAGES], after those created
    before; it touches no element, variable, timer or console line, and it
    consumes no random number. *)
Theorem preloadImages_requests_all (cfg : Config) (w : World) :
  ∃ w',
    preloadImages cfg w = Returned tt w' ∧
    imageLoads w' = imageLoads w ++ HERO_IMAGES cfg ∧
    document w' = document w ∧ isMenuOpen w' = isMenuOpen w ∧
    rotation_state w' = rotation_state w ∧
    console w' = console w ∧ randomCalls w' = randomCalls w.
Proof.
  destruct (forEach_imageLoads (HERO_IMAGES cfg) w)
    as (w' & Hrun & Hloads & (Hd & Hm & Hc & Hi & Ht & _ & Hr & _) & Hconsole).
  exists w'. unfold rotation_state. simpl in *.
  repeat split; try assumption. by rewrite Hc, Hi, Ht.
Qed.

(** ** The hero image *)

Lemma lookup_alter_present {A} (f : A → A) (m : gmap string A) (k : string) (x : A) :
  m !! k = Some x → alter f k m !! k = Some (f x).
Proof. intros H. by rewrite lookup_alter_eq, H. Qed.




Lemma js_index_nil {A} (i : Z) : js_index (@nil A) i = None.
Proof. unfold js_index. by destruct (i <? 0). Qed.

(** X4.  The two edges of [HeroImage.init].  Without the hero image
    element it returns having changed nothing of the page and having used no
    random number; only the lookup helper's warning is printed.  With the
    element but an empty list of images, the pick is [undefined] and the
    element's [src] is set to the text "undefined". *)
Theorem HeroImage_init_edge_cases (cfg : Config) (w : World) :
  (document w !! "#heroImg" = None →
   ∃ w', HeroImage.init cfg w = Returned tt w' ∧ same_page w w' ∧
         console w' = console w ++ [not_found "#heroImg"]) ∧
  (present "#heroImg" w → HERO_IMAGES cfg = [] →
   ∃ w', HeroImage.init cfg w = Returned tt w' ∧
         attribute_of "#heroImg" "src" w' = Some "undefined").
Proof.
  unfold HeroImage.init, HeroImage.setRandomImage, bind. split.
  - intros H. rewrite (dollar_missing _ _ H). eexists. split; [reflexivity |].
    by repeat split.
  - intros [e He] Hnil. rewrite (dollar_found _ _ _ He), Hnil.
    unfold getRandomItem, bind. rewrite getRandomInt_eq. unfold ret.
    rewrite js_index_nil. eexists. split; [reflexivity |].
    unfold attribute_of. simpl. rewrite (lookup_alter_present _ _ _ _ He). simpl.
    apply lookup_insert_eq.
Qed.

Lemma HeroImage_init_edge_cases_witness :
  (∃ w', HeroImage.init CONFIG bare_page = Returned tt w' ∧ same_page bare_page w' ∧
         console w' = console bare_page ++ [not_found "#heroImg"]) ∧
  (∃ w', HeroImage.init
           {| WORD_ROTATION_INTERVAL := 3000; WORD_FADE_DURATION := 300;
              HERO_WORDS := HERO_WORDS CONFIG; HERO_IMAGES := [] |} sample_page
           = Returned tt w' ∧
         attribute_of "#heroImg" "src" w' = Some "undefined").
Proof.
  split.
  - apply (proj1 (HeroImage_init_edge_cases CONFIG bare_page)). reflexivity.
  - apply (proj2 (HeroImage_init_edge_cases _ sample_page)); [| reflexivity].
    eexists. vm_compute. reflexivity.
Defined.

(** ** What start puts on the page *)



(** X6.  Start, then stop: with the rotating-word element present the pair
    returns with the host's timer map exactly as it was before and
    [intervalId] cleared, whatever [intervalId] held before. *)
Theorem start_then_stop_restores_timers (cfg : Config) (w : World) :
  present "#rotatingWord" w →
  ∃ w',
    (WordRotation.start cfg ;; WordRotation.stop) w = Returned tt w' ∧
    timers w' = timers w ∧ intervalId w' = None.
Proof.
  intros [e He].
  exists (set_intervalId None (set_timers (delete (new_timer_id w)) (started cfg w))).
  split.
  { unfold bind. rewrite (start_present cfg e w He). by apply stop_running. }
  split; [| reflexivity].
  simpl. rewrite delete_insert_eq. apply delete_id, new_timer_id_unused.
Qed.

Lemma start_then_stop_restores_timers_witness :
  present "#rotatingWord" sample_page ∧
  ∃ w',
    (WordRotation.start CONFIG ;; WordRotation.stop) sample_page = Returned tt w' ∧
    timers w' = timers sample_page ∧ intervalId w' = None.
Proof.
  split; [exact sample_page_present |].
  exact (start_then_stop_restores_timers CONFIG sample_page sample_page_present).
Defined.

(** ** One turn of the rotation *)

Lemma exec_rotation cfg id ms element w :
  timers w !! id = Some {| repeat := true; delay := ms; callback := CbRotate element |} →
  exec cfg (ActTimer id) w = rotated cfg element w.
Proof. intros Ht. unfold exec. simpl. rewrite fire_timer_eq, Ht. reflexivity. Qed.

Lemma exec_fade cfg id ms element newWord w :
  timers w !! id = Some {| repeat := false; delay := ms; callback := CbFade element newWord |} →
  exec cfg (ActTimer id) w = set_timers (delete id) (faded element newWord w).
Proof. intros Ht. unfold exec. simpl. rewrite fire_timer_eq, Ht. reflexivity. Qed.

(** X7.  One turn of the rotation on an element that is there, with at
    least one word and a cursor that is not negative.  When the interval
    fires, the cursor advances cyclically, the element's opacity becomes "0"
    while its text is still the old one, and one one-shot timer of the fade
    duration is queued under a free handle, carrying the word at the new
    cursor.  When that timer fires, the element's text is that word, its
    opacity is "1", the cursor has not moved, and the timer map is back to
    what it was before the turn: the one-shot timer has left it. *)
Theorem rotation_tick_then_fade (cfg : Config) (w : World)
    (id : positive) (ms : Z) (element : string) :
  let N := Z.of_nat (length (HERO_WORDS cfg)) in
  1 <= N → 0 <= currentIndex w → present element w →
  timers w !! id = Some {| repeat := true; delay := ms; callback := CbRotate element |} →
  let w1 := exec cfg (ActTimer id) w in
  let fade := new_timer_id w in
  let w2 := exec cfg (ActTimer fade) w1 in
  ∃ word,
    currentIndex w1 = (currentIndex w + 1) mod N ∧
    HERO_WORDS cfg !! Z.to_nat (currentIndex w1) = Some word ∧
    style_of element "opacity" w1 = Some "0" ∧
    text_of element w1 = text_of element w ∧
    timers w1 = <[fade := {| repeat := false; delay := WORD_FADE_DURATION cfg;
                             callback := CbFade element (Some word) |}]> (timers w) ∧
    timers w !! fade = None ∧
    text_of element w2 = Some word ∧
    style_of element "opacity" w2 = Some "1" ∧
    currentIndex w2 = currentIndex w1 ∧
    timers w2 = timers w.
Proof.
  intros N HN Hc [e He] Ht w1 fade w2.
  assert (H1 : w1 = rotated cfg element w) by (by eapply exec_rotation).
  set (i := js_rem (currentIndex w + 1) N).
  assert (Hi : i = (currentIndex w + 1) mod N).
  { unfold i, js_rem. apply Z.rem_mod_nonneg; lia. }
  assert (Hrange : 0 <= i < N) by (rewrite Hi; apply Z.mod_pos_bound; lia).
  destruct (js_index_in_range (HERO_WORDS cfg) i Hrange) as (word & Hword & _).
  assert (Htimers1 : timers w1 =
            <[fade := {| repeat := false; delay := WORD_FADE_DURATION cfg;
                         callback := CbFade element (Some word) |}]> (timers w)).
  { rewrite H1. unfold rotated. fold N. fold i. rewrite Hword. reflexivity. }
  assert (Hel1 : document w1 !! element = Some (assign_style "opacity" "0" e)).
  { rewrite H1. unfold rotated. cbn [document set_timers set_document set_currentIndex].
    by rewrite lookup_alter_eq, He. }
  assert (H2 : w2 = set_timers (delete fade) (faded element (Some word) w1)).
  { eapply exec_fade. rewrite Htimers1. apply lookup_insert_eq. }
  assert (Hel2 : document w2 !! element =
                 Some (assign_style "opacity" "1"
                         (assign_textContent (Some word) (assign_style "opacity" "0" e)))).
  { rewrite H2. unfold faded. cbn [document set_timers set_document].
    by rewrite lookup_alter_eq, lookup_alter_eq, Hel1. }
  exists word.
  split; [rewrite H1; exact Hi |].
  split.
  { rewrite H1. change (currentIndex (rotated cfg element w)) with i.
    rewrite <- Hword. symmetry. apply js_index_nonneg. lia. }
  split; [unfold style_of; rewrite Hel1; apply lookup_insert_eq |].
  split; [unfold text_of; by rewrite Hel1, He |].
  split; [exact Htimers1 |].
  split; [apply new_timer_id_unused |].
  split; [unfold text_of; by rewrite Hel2 |].
  split; [unfold style_of; rewrite Hel2; apply lookup_insert_eq |].
  split; [by rewrite H2 |].
  rewrite H2. cbn [timers set_timers faded set_document]. rewrite Htimers1.
  rewrite delete_insert_eq. apply delete_id, new_timer_id_unused.
Qed.

Lemma rotation_tick_then_fade_witness :
  let w := exec CONFIG ActStart sample_page in
  let w1 := exec CONFIG (ActTimer 1%positive) w in
  let fade := new_timer_id w in
  let w2 := exec CONFIG (ActTimer fade) w1 in
  ∃ word,
    currentIndex w1 = (currentIndex w + 1) mod 10 ∧
    HERO_WORDS CONFIG !! Z.to_nat (currentIndex w1) = Some word ∧
    style_of "#rotatingWord" "opacity" w1 = Some "0" ∧
    text_of "#rotatingWord" w1 = text_of "#rotatingWord" w ∧
    timers w1 = <[fade := {| repeat := false; delay := 300;
                             callback := CbFade "#rotatingWord" (Some word) |}]> (timers w) ∧
    timers w !! fade = None ∧
    text_of "#rotatingWord" w2 = Some word ∧
    style_of "#rotatingWord" "opacity" w2 = Some "1" ∧
    currentIndex w2 = currentIndex w1 ∧
    timers w2 = timers w.
Proof.
  intros w.
  apply (rotation_tick_then_fade CONFIG w 1%positive 3000 "#rotatingWord").
  - simpl. lia.
  - vm_compute. discriminate.
  - eexists. vm_compute. reflexivity.
  - vm_compute. reflexivity.
Defined.

(** ** Invariants that look at the page

    The counterpart of [page_blind] for properties that do read elements:
    [toggleMenu] is taken as one step, the writes of the set-up code are
    listed in [init_write]. *)

Section SetupBlind.

Variable P : World → Prop.
Hypothesis blind : setup_blind P.

Lemma setup_keeps_dollar selector : keeps P (dollar selector).
Proof.
  unfold dollar, querySelector. apply keeps_bind; [apply keeps_gets |].
  intros [el|]; (apply keeps_bind; [| intros _; apply keeps_ret]).
  - apply keeps_ret.
  - apply keeps_modify. intros w. apply blind.
Qed.

Lemma setup_keeps_write el f : init_write f → keeps P (update_element el f).
Proof. intros Hf. apply keeps_modify. intros w. by apply blind. Qed.

Lemma setup_keeps_run_handler h :
  keeps P Navigation.toggleMenu → keeps P (run_handler h).
Proof.
  intros Htoggle. destruct h; [exact Htoggle |].
  unfold run_handler, Navigation.closeIfOpen. apply keeps_bind; [apply keeps_gets |].
  intros [|]; [exact Htoggle | apply keeps_ret].
Qed.

Lemma setup_keeps_click element :
  keeps P Navigation.toggleMenu → keeps P (click element).
Proof.
  intros Htoggle. unfold click. apply keeps_bind; [apply keeps_gets | intros ls].
  apply keeps_forEach. intros h. by apply setup_keeps_run_handler.
Qed.

Lemma setup_keeps_click_link link :
  keeps P Navigation.toggleMenu → keeps P (click_link link).
Proof.
  intros Htoggle. unfold click_link. apply keeps_bind; [apply keeps_gets | intros ls].
  apply keeps_forEach. intros h. by apply setup_keeps_run_handler.
Qed.

Lemma setup_keeps_Navigation_init : keeps P Navigation.init.
Proof.
  unfold Navigation.init, Navigation.closeMenuOnLinkClick.
  apply keeps_bind; [apply setup_keeps_dollar | intros [n|]]; [| apply keeps_ret].
  apply keeps_bind; [apply setup_keeps_write, IW_listener | intros _].
  apply keeps_bind; [apply setup_keeps_dollar | intros [s|]]; [| apply keeps_ret].
  apply keeps_bind; [apply keeps_gets | intros links].
  apply keeps_forEach. intros link. apply setup_keeps_write, IW_link.
Qed.

Lemma setup_keeps_HeroImage_init cfg : keeps P (HeroImage.init cfg).
Proof.
  unfold HeroImage.init, HeroImage.setRandomImage.
  apply keeps_bind; [apply setup_keeps_dollar | intros [h|]]; [| apply keeps_ret].
  apply keeps_bind; [| intros img; apply setup_keeps_write, IW_src].
  unfold getRandomItem, getRandomInt.
  apply keeps_bind; [| intros i; apply keeps_ret].
  apply keeps_bind; [| intros r; apply keeps_ret].
  intros w H. do 2 eexists. split; [reflexivity |]. by apply blind.
Qed.

Lemma setup_keeps_preloadImages cfg : keeps P (preloadImages cfg).
Proof.
  unfold preloadImages. apply keeps_forEach. intros src.
  apply keeps_modify. intros w. apply blind.
Qed.

Lemma setup_keeps_perform cfg a :
  (restarts a = true → keeps P (WordRotation.start cfg)) →
  (stops a = true → keeps P WordRotation.stop) →
  (∀ id, a = ActTimer id → keeps P (fire_timer cfg id)) →
  (is_click a = true → keeps P Navigation.toggleMenu) →
  keeps P (perform cfg a).
Proof.
  intros Hstart Hstop Hfire Htoggle. destruct a as [| | |id|el|link|]; simpl.
  - unfold initApp, initApp_with. apply keeps_try_catch.
    apply keeps_bind; [apply setup_keeps_Navigation_init | intros _].
    apply keeps_bind; [by apply Hstart | intros _].
    apply keeps_bind; [apply setup_keeps_HeroImage_init | intros _].
    apply setup_keeps_preloadImages.
  - by apply Hstart.
  - by apply Hstop.
  - by apply Hfire.
  - by apply setup_keeps_click, Htoggle.
  - by apply setup_keeps_click_link, Htoggle.
  - by apply Hstop.
Qed.

End SetupBlind.

Lemma page_blind_setup_blind (P : World → Prop) : page_blind P → setup_blind P.
Proof.
  intros (Hd & Hm & Hc & Hr & Hi). repeat split; try assumption.
  intros f el w _. apply Hd.
Qed.

(** [start] and [toggleMenu] by cases on what the lookups find. *)
Lemma start_cases cfg w :
  (present "#rotatingWord" w ∧ WordRotation.start cfg w = Returned tt (started cfg w)) ∨
  (document w !! "#rotatingWord" = None ∧
   WordRotation.start cfg w = Returned tt (warned [not_found "#rotatingWord"] w)).
Proof.
  destruct (document w !! "#rotatingWord") as [e|] eqn:He.
  - left. split; [by exists e | by apply (start_present cfg e)].
  - right. split; [reflexivity |].
    unfold WordRotation.start, bind. by rewrite (dollar_missing _ _ He).
Qed.

Lemma toggleMenu_cases w :
  (present "#sideMenu" w ∧ present "#navCta" w ∧
   Navigation.toggleMenu w = Returned tt (toggled w)) ∨
  (∃ msgs, Navigation.toggleMenu w = Returned tt (warned msgs w)).
Proof.
  destruct (document w !! "#sideMenu") as [s|] eqn:Hs;
    destruct (document w !! "#navCta") as [n|] eqn:Hn.
  - left. split; [by exists s |]. split; [by exists n |].
    by apply (toggleMenu_present s n).
  - right. eexists. unfold Navigation.toggleMenu, bind.
    rewrite (dollar_found _ _ _ Hs), (dollar_missing _ _ Hn). reflexivity.
  - right. eexists. unfold Navigation.toggleMenu, bind.
    rewrite (dollar_missing _ _ Hs), (dollar_found "#navCta" n) by exact Hn. reflexivity.
  - right. exists [not_found "#sideMenu"; not_found "#navCta"].
    unfold Navigation.toggleMenu, bind.
    rewrite (dollar_missing _ _ Hs), (dollar_missing "#navCta") by exact Hn.
    by rewrite warned_warned.
Qed.

Lemma keeps_of_cases {A} (P : World → Prop) (m : M A) :
  (∀ w, P w → ∃ a w', m w = Returned a w') →
  (∀ w, P w → P (world_of (m w))) → keeps P m.
Proof.
  intros Hret HP w H. destruct (Hret w H) as (a & w' & Hr).
  exists a, w'. split; [exact Hr |]. specialize (HP w H). by rewrite Hr in HP.
Qed.

Lemma start_returns cfg w : ∃ a w', WordRotation.start cfg w = Returned a w'.
Proof. destruct (start_cases cfg w) as [[_ ->]|[_ ->]]; by do 2 eexists. Qed.

(** ** The timers of a running page *)

Lemma timers_wellformed_page_blind cfg : page_blind (timers_wellformed cfg).
Proof. solve_page_blind. Qed.

Lemma rotation_timer_not_fade cfg : ¬ is_fade_timer cfg (rotation_timer cfg).
Proof. intros [nw H]. discriminate. Qed.

Lemma timers_wellformed_step cfg a :
  keeps (timers_wellformed cfg) (perform cfg a).
Proof.
  apply keeps_perform; [apply timers_wellformed_page_blind | ..].
  - intros _. apply keeps_of_cases; [intros w _; apply start_returns |].
    intros w [Hall Hid]. destruct (start_cases cfg w) as [[_ ->]|[_ ->]]; [| by split].
    split; simpl.
    + intros id t Ht. apply lookup_insert_Some in Ht as [[_ <-]|[_ Ht]]; [by left |].
      by apply (Hall id).
    + intros id Heq. simplify_eq. apply lookup_insert_eq.
  - intros _. apply keeps_stop. intros id w [Hall Hid] Hi. split; simpl; [| done].
    intros id' t Ht. apply lookup_delete_Some in Ht as [_ Ht]. by apply (Hall id').
  - intros id _. apply keeps_fire_timer. intros w [Hall Hid].
    rewrite fire_timer_eq. simpl.
    destruct (timers w !! id) as [t|] eqn:Ht; [| by split].
    destruct (Hall id t Ht) as [->|[nw ->]]; simpl.
    + split; simpl.
      * intros id' t' Ht'. apply lookup_insert_Some in Ht' as [[_ <-]|[_ Ht']].
        -- right. by eexists.
        -- by apply (Hall id').
      * intros id' Hi. rewrite lookup_insert_ne; [by apply Hid |].
        apply (unused_differs _ (rotation_timer cfg)). by apply Hid.
    + split; simpl.
      * intros id' t' Ht'. apply lookup_delete_Some in Ht' as [_ Ht']. by apply (Hall id').
      * intros id' Hi. specialize (Hid id' Hi).
        rewrite lookup_delete_ne; [exact Hid |]. intros ->. rewrite Hid in Ht. discriminate.
Qed.

(** X8.  In every world the script can reach, every active timer is one
    of the two it creates for "#rotatingWord": the recurring rotation timer
    with the configured interval, or a one-shot fade with the configured
    fade duration; and [intervalId], whenever it is set, is the handle of an
    active rotation timer, so that [stop] always has a live interval to
    cancel. *)
Theorem reachable_timers_wellformed (cfg : Config) (w : World) :
  reachable cfg w → timers_wellformed cfg w.
Proof.
  intros (w0 & actions & (_ & _ & Hid & Ht) & ->).
  apply (run_keeps (timers_wellformed cfg) cfg (fun _ => true)).
  - intros a _. apply timers_wellformed_step.
  - apply forallb_all_true.
  - split.
    + intros id t H. rewrite Ht, lookup_empty in H. discriminate.
    + intros id H. congruence.
Qed.

Lemma reachable_timers_wellformed_witness :
  let w := run CONFIG [ActInitApp; ActTimer 1; ActStart; ActTimer 3; ActStop]%positive
               sample_page in
  reachable CONFIG w ∧ timers_wellformed CONFIG w.
Proof.
  intros w.
  assert (Hreach : reachable CONFIG w).
  { exists sample_page, [ActInitApp; ActTimer 1; ActStart; ActTimer 3; ActStop]%positive.
    split; [repeat split | reflexivity]. }
  split; [exact Hreach | exact (reachable_timers_wellformed CONFIG w Hreach)].
Defined.

(** ** The word on display *)








Lemma sample_page_freshly_loaded : freshly_loaded sample_page.
Proof. repeat split. Defined.


Lemma text_of_alter selector el (f : Element → Element) w :
  (∀ e, textContent (f e) = textContent e) →
  text_of selector (set_document (alter f el) w) = text_of selector w.
Proof.
  intros Hf. unfold text_of. simpl. rewrite lookup_alter.
  case_decide; [subst |]; [| reflexivity].
  destruct (document w !! selector) as [e|]; simpl; [by rewrite Hf | reflexivity].
Qed.



Lemma toggled_text selector w : text_of selector (toggled w) = text_of selector w.
Proof.
  unfold toggled. rewrite !text_of_alter; first reflexivity.
  - intros e. unfold classList_toggle. by repeat case_match.
  - intros e. unfold classList_toggle. by repeat case_match.
  - reflexivity.
Qed.









(** ** What the menu shows *)

Lemma menu_view_alter el (f : Element → Element) w :
  (∀ e, classList (f e) = classList e) →
  (∀ e, attributes (f e) !! "aria-expanded" = attributes e !! "aria-expanded") →
  menu_view (set_document (alter f el) w) = menu_view w.
Proof.
  intros Hc Ha. unfold menu_view, has_class. simpl. rewrite !lookup_alter.
  repeat case_decide; subst; try discriminate;
    repeat match goal with
           | |- context [document w !! ?k] => destruct (document w !! k); simpl
           end;
    by rewrite ?Hc, ?Ha.
Qed.

Lemma init_write_menu f :
  init_write f →
  (∀ e, classList (f e) = classList e) ∧
  (∀ e, attributes (f e) !! "aria-expanded" = attributes e !! "aria-expanded").
Proof.
  intros [| i | v]; split; intros e; try reflexivity.
  - unfold addClickListener. by destruct (bool_decide _).
  - unfold addClickListener. by destruct (bool_decide _).
  - simpl. by rewrite lookup_insert_ne.
Qed.

Lemma menu_view_setup_blind v : setup_blind (fun w => menu_view w = v).
Proof.
  unfold setup_blind. repeat match goal with |- _ ∧ _ => split end;
    try (intros; assumption).
  intros f el w Hf H. destruct (init_write_menu f Hf) as [Hc Ha].
  by rewrite menu_view_alter.
Qed.

Lemma started_menu_view cfg w : menu_view (started cfg w) = menu_view w.
Proof.
  unfold started.
  change (menu_view (set_intervalId ?i (set_timers ?f ?x))) with (menu_view x).
  by rewrite !menu_view_alter.
Qed.

Lemma rotated_menu_view cfg element w : menu_view (rotated cfg element w) = menu_view w.
Proof.
  unfold rotated.
  change (menu_view (set_timers ?f ?x)) with (menu_view x).
  by rewrite menu_view_alter.
Qed.

Lemma faded_menu_view element newWord w : menu_view (faded element newWord w) = menu_view w.
Proof. unfold faded. by rewrite !menu_view_alter. Qed.

Lemma fire_timer_menu_view cfg id w :
  menu_view (world_of (fire_timer cfg id w)) = menu_view w.
Proof.
  rewrite fire_timer_eq. simpl. destruct (timers w !! id) as [t|]; [| reflexivity].
  destruct (callback t), (repeat t);
    first [apply rotated_menu_view | apply faded_menu_view].
Qed.

Lemma menu_view_step cfg a v :
  is_click a = false → keeps (fun w => menu_view w = v) (perform cfg a).
Proof.
  intros Ha. apply setup_keeps_perform; [apply menu_view_setup_blind | ..].
  - intros _. apply keeps_of_cases; [intros w _; apply start_returns |].
    intros w H. destruct (start_cases cfg w) as [[_ ->]|[_ ->]]; [| exact H].
    cbn [world_of]. by rewrite started_menu_view.
  - intros _. apply keeps_stop. intros; assumption.
  - intros id _. apply keeps_fire_timer. intros w H. by rewrite fire_timer_menu_view.
  - congruence.
Qed.

(** X11.  Only a click can change what the menu shows: over every
    sequence of actions without a click (bootstrap, starts, stops, timer
    firings, unload) the menu flag, the "active" class of the side menu and
    of the trigger, and the trigger's [aria-expanded] are what they were. *)
Theorem menu_view_only_changed_by_clicks (cfg : Config) (actions : list Action) (w : World) :
  forallb (fun a => negb (is_click a)) actions = true →
  menu_view (run cfg actions w) = menu_view w.
Proof.
  intros Hok.
  apply (run_keeps (fun w' => menu_view w' = menu_view w) cfg (fun a => negb (is_click a)));
    [| exact Hok | reflexivity].
  intros a Ha. apply menu_view_step. by destruct (is_click a).
Qed.

Lemma menu_view_only_changed_by_clicks_witness :
  let actions := [ActInitApp; ActTimer 1; ActTimer 2; ActStop; ActStart; ActBeforeUnload]%positive in
  menu_view (run CONFIG actions sample_page) = menu_view sample_page.
Proof.
  intros actions. apply (menu_view_only_changed_by_clicks CONFIG actions sample_page).
  reflexivity.
Defined.

Lemma menu_consistent_setup_blind : setup_blind menu_consistent.
Proof.
  unfold setup_blind. repeat match goal with |- _ ∧ _ => split end;
    try (intros; assumption).
  intros f el w Hf H. destruct (init_write_menu f Hf) as [Hc Ha].
  unfold menu_consistent in *. by rewrite menu_view_alter.
Qed.

Lemma toggled_consistent w :
  present "#sideMenu" w → present "#navCta" w → menu_consistent (toggled w).
Proof. intros [s Hs] [n Hn]. unfold menu_consistent. by rewrite (toggled_view s n). Qed.

Lemma menu_consistent_toggleMenu : keeps menu_consistent Navigation.toggleMenu.
Proof.
  intros w H. destruct (toggleMenu_cases w) as [(Hs & Hn & ->)|[msgs ->]];
    do 2 eexists; (split; [reflexivity |]); [by apply toggled_consistent | exact H].
Qed.

Lemma menu_consistent_step cfg a : keeps menu_consistent (perform cfg a).
Proof.
  apply setup_keeps_perform; [apply menu_consistent_setup_blind | ..].
  - intros _. apply keeps_of_cases; [intros w _; apply start_returns |].
    intros w H. destruct (start_cases cfg w) as [[_ ->]|[_ ->]]; [| exact H].
    cbn [world_of]. unfold menu_consistent in *. by rewrite started_menu_view.
  - intros _. apply keeps_stop. intros; assumption.
  - intros id _. apply keeps_fire_timer. intros w H.
    unfold menu_consistent in *. rewrite fire_timer_menu_view.
    by rewrite fire_timer_eq in *; destruct (timers w !! id) as [t|];
      [destruct (callback t), (repeat t) |].
  - intros _. apply menu_consistent_toggleMenu.
Qed.

(** X12.  Once the page shows what the menu flag says ("active" on both
    elements and [aria-expanded] agree with [isMenuOpen]), it does so after
    every sequence of actions. *)
Theorem menu_stays_consistent (cfg : Config) (actions : list Action) (w : World) :
  menu_consistent w → menu_consistent (run cfg actions w).
Proof.
  intros H. apply (run_keeps menu_consistent cfg (fun _ => true));
    [| apply forallb_all_true | exact H].
  intros a _. apply menu_consistent_step.
Qed.

Lemma menu_stays_consistent_witness :
  let actions := [ActInitApp; ActClick "#navCta"; ActTimer 1%positive;
                  ActClickLink ("#sideMenu", 1%nat); ActClick "#navCta"] in
  menu_consistent consistent_page ∧
  menu_consistent (run CONFIG actions consistent_page).
Proof.
  intros actions.
  assert (H : menu_consistent consistent_page) by (vm_compute; reflexivity).
  split; [exact H | exact (menu_stays_consistent CONFIG actions consistent_page H)].
Defined.

(** X13.  Whatever the page showed before, one call of [toggleMenu] with
    both elements present returns with the flag flipped and the page showing
    the new flag: "active" is on both elements exactly when the menu is now
    open, and [aria-expanded] reads "true" or "false" accordingly; and the
    page keeps showing the flag after every further sequence of actions. *)
Theorem toggleMenu_makes_consistent (cfg : Config) (w : World) :
  present "#sideMenu" w → present "#navCta" w →
  ∃ w',
    Navigation.toggleMenu w = Returned tt w' ∧
    isMenuOpen w' = negb (isMenuOpen w) ∧
    menu_view w' =
      (isMenuOpen w', Some (isMenuOpen w'), Some (isMenuOpen w'),
       Some (Some (if isMenuOpen w' then "true" else "false"))) ∧
    ∀ actions, menu_consistent (run cfg actions w').
Proof.
  intros [s Hs] [n Hn]. exists (toggled w).
  split; [by apply (toggleMenu_present s n) |].
  split; [reflexivity |].
  split; [by apply (toggled_view s n) |].
  intros actions. apply (run_keeps menu_consistent cfg (fun _ => true));
    [| apply forallb_all_true |].
  - intros a _. apply menu_consistent_step.
  - apply toggled_consistent; by eexists.
Qed.

Lemma toggleMenu_makes_consistent_witness :
  present "#sideMenu" sample_page ∧ present "#navCta" sample_page ∧
  ∃ w',
    Navigation.toggleMenu sample_page = Returned tt w' ∧
    isMenuOpen w' = negb (isMenuOpen sample_page) ∧
    menu_view w' =
      (isMenuOpen w', Some (isMenuOpen w'), Some (isMenuOpen w'),
       Some (Some (if isMenuOpen w' then "true" else "false"))) ∧
    ∀ actions, menu_consistent (run CONFIG actions w').
Proof.
  assert (Hs : present "#sideMenu" sample_page) by (eexists; vm_compute; reflexivity).
  assert (Hn : present "#navCta" sample_page) by (eexists; vm_compute; reflexivity).
  split; [exact Hs |]. split; [exact Hn |].
  exact (toggleMenu_makes_consistent CONFIG sample_page Hs Hn).
Defined.

(** ** Setting up the navigation *)


Lemma foldl_alter_length {A} (g : A → A) (indices : list nat) (l : list A) :
  length (foldl (fun l j => alter g j l) l indices) = length l.
Proof.
  revert l. induction indices as [|j rest IH]; intros l; simpl; [reflexivity |].
  by rewrite IH, length_alter.
Qed.


Lemma update_element_eq (el : string) (f : Element → Element) (w : World) :
  update_element el f w = Returned tt (set_document (alter f el) w).
Proof. reflexivity. Qed.







Lemma sample_page_menu_present :
  present "#sideMenu" sample_page ∧ present "#navCta" sample_page.
Proof. split; eexists; vm_compute; reflexivity. Defined.


(** X15.  The edges of [Navigation.init].  Without the trigger it returns
    at once: nothing of the page changes, no link of the side menu gets a
    listener, and the only trace is the lookup helper's warning.  With the
    trigger but without the side menu, the trigger still gets its
    [toggleMenu] listener and the warning is for the side menu. *)
Theorem Navigation_init_edge_cases (w : World) :
  (document w !! "#navCta" = None →
   ∃ w', Navigation.init w = Returned tt w' ∧ same_page w w' ∧
         console w' = console w ++ [not_found "#navCta"]) ∧
  (present "#navCta" w → document w !! "#sideMenu" = None →
   ∃ w', Navigation.init w = Returned tt w' ∧
         listeners_of "#navCta" w' =
           (if bool_decide (HToggleMenu ∈ listeners_of "#navCta" w)
            then listeners_of "#navCta" w
            else listeners_of "#navCta" w ++ [HToggleMenu]) ∧
         console w' = console w ++ [not_found "#sideMenu"] ∧
         same_but_document (warned [not_found "#sideMenu"] w) w').
Proof.
  split.
  - intros Hn. unfold Navigation.init, bind. rewrite (dollar_missing _ _ Hn).
    eexists. split; [reflexivity |]. by repeat split.
  - intros [n Hn] Hs.
    unfold Navigation.init, Navigation.closeMenuOnLinkClick, bind.
    rewrite (dollar_found _ _ _ Hn), update_element_eq.
    rewrite (dollar_missing "#sideMenu")
      by (simpl; by rewrite lookup_alter_ne).
    eexists. split; [reflexivity |].
    split; [| by repeat split].
    unfold listeners_of. simpl. rewrite lookup_alter_eq, Hn. simpl.
    unfold addClickListener. by destruct (bool_decide _).
Qed.

Lemma Navigation_init_edge_cases_witness :
  (∃ w', Navigation.init bare_page = Returned tt w' ∧ same_page bare_page w' ∧
         console w' = console bare_page ++ [not_found "#navCta"]) ∧
  (∃ w', Navigation.init page_without_menu = Returned tt w' ∧
         listeners_of "#navCta" w' =
           (if bool_decide (HToggleMenu ∈ listeners_of "#navCta" page_without_menu)
            then listeners_of "#navCta" page_without_menu
            else listeners_of "#navCta" page_without_menu ++ [HToggleMenu]) ∧
         console w' = console page_without_menu ++ [not_found "#sideMenu"] ∧
         same_but_document (warned [not_found "#sideMenu"] page_without_menu) w').
Proof.
  split.
  - apply (proj1 (Navigation_init_edge_cases bare_page)). reflexivity.
  - apply (proj2 (Navigation_init_edge_cases page_without_menu)).
    + eexists. vm_compute. reflexivity.
    + vm_compute. reflexivity.
Defined.

(** ** Clicks *)









(** ** What the menu code leaves alone *)

Lemma has_class_toggle_other token force e :
  token ≠ "active" →
  has_class token (classList_toggle "active" force e) = has_class token e.
Proof.
  intros Hne. unfold classList_toggle. destruct force.
  - destruct (has_class "active" e); [reflexivity |].
    unfold has_class. simpl. apply bool_decide_ext.
    rewrite elem_of_app, list_elem_of_singleton. tauto.
  - unfold has_class. simpl. apply bool_decide_ext.
    rewrite list_elem_of_filter. tauto.
Qed.

Lemma classList_toggle_NoDup force e :
  NoDup (classList e) → NoDup (classList (classList_toggle "active" force e)).
Proof.
  intros Hnd. unfold classList_toggle. destruct force.
  - destruct (has_class "active" e) eqn:Hhas; [exact Hnd |]. simpl.
    apply NoDup_app. split; [exact Hnd |]. split; [| apply NoDup_singleton].
    intros x Hx ->%list_elem_of_singleton.
    unfold has_class in Hhas. by apply bool_decide_eq_false in Hhas.
  - simpl. by apply NoDup_filter.
Qed.

Lemma setAttribute_NoDup name value e :
  NoDup (classList e) → NoDup (classList (setAttribute name value e)).
Proof. intros H. exact H. Qed.

Lemma lookup_observe_alter {B} (g : Element → B) (f : Element → Element)
    (el selector : string) (m : gmap string Element) :
  (∀ e, g (f e) = g e) → g <$> alter f el m !! selector = g <$> m !! selector.
Proof.
  intros Hg. rewrite lookup_alter. case_decide; [subst |]; [| reflexivity].
  destruct (m !! selector); simpl; [by rewrite Hg | reflexivity].
Qed.

Lemma toggled_observe {B} (g : Element → B) selector w :
  (∀ b e, g (classList_toggle "active" b e) = g e) →
  (∀ v e, g (setAttribute "aria-expanded" v e) = g e) →
  g <$> document (toggled w) !! selector = g <$> document w !! selector.
Proof.
  intros Hc Ha. unfold toggled. simpl.
  rewrite !lookup_observe_alter; [reflexivity | ..]; intros e; first [apply Hc | apply Ha].
Qed.

Lemma toggle_keeps_fields b e :
  textContent (classList_toggle "active" b e) = textContent e ∧
  style (classList_toggle "active" b e) = style e ∧
  attributes (classList_toggle "active" b e) = attributes e ∧
  clickListeners (classList_toggle "active" b e) = clickListeners e ∧
  anchors (classList_toggle "active" b e) = anchors e.
Proof. unfold classList_toggle. by repeat case_match. Qed.

(** X18.  With both elements present, [toggleMenu] touches nothing but the
    flag, the "active" token and [aria-expanded]: the cursor, the handle,
    the timers, the console, the random source and the preloaded images are
    as before; so are every other element, and on every element the text,
    the inline style, the listeners, every class token other than "active"
    and every attribute other than [aria-expanded]; and a class list
    without duplicates stays without duplicates. *)
Theorem toggleMenu_frame (w : World) :
  present "#sideMenu" w → present "#navCta" w →
  ∃ w',
    Navigation.toggleMenu w = Returned tt w' ∧
    rotation_state w' = rotation_state w ∧ console w' = console w ∧
    randomCalls w' = randomCalls w ∧ imageLoads w' = imageLoads w ∧
    (∀ selector, selector ≠ "#sideMenu" → selector ≠ "#navCta" →
       document w' !! selector = document w !! selector) ∧
    (∀ selector,
       text_of selector w' = text_of selector w ∧
       style <$> document w' !! selector = style <$> document w !! selector ∧
       listeners_of selector w' = listeners_of selector w ∧
       anchors_of selector w' = anchors_of selector w) ∧
    (∀ selector token, token ≠ "active" →
       has_class token <$> document w' !! selector
         = has_class token <$> document w !! selector) ∧
    (∀ selector name, name ≠ "aria-expanded" →
       attribute_of selector name w' = attribute_of selector name w) ∧
    (∀ selector e', document w' !! selector = Some e' →
       ∃ e, document w !! selector = Some e ∧ (NoDup (classList e) → NoDup (classList e'))).
Proof.
  intros [s Hs] [n Hn]. exists (toggled w).
  split; [by apply (toggleMenu_present s n) |].
  do 4 (split; [reflexivity |]).
  split.
  { intros sel H1 H2. unfold toggled. simpl. by rewrite !lookup_alter_ne. }
  split.
  { intros sel. unfold text_of, listeners_of, anchors_of.
    rewrite !toggled_observe; try done; intros b e; apply toggle_keeps_fields. }
  split.
  { intros sel token Htoken. apply toggled_observe; [| reflexivity].
    intros b e. by apply has_class_toggle_other. }
  split.
  { intros sel name Hname. unfold attribute_of.
    assert (H : (fun e => attributes e !! name) <$> document (toggled w) !! sel
                = (fun e => attributes e !! name) <$> document w !! sel).
    { apply toggled_observe.
      - intros b e. by destruct (toggle_keeps_fields b e) as (_ & _ & -> & _).
      - intros v e. simpl. by rewrite lookup_insert_ne. }
    destruct (document (toggled w) !! sel), (document w !! sel); simpl in *; congruence. }
  intros sel e' He'. unfold toggled in He'. simpl in He'.
  rewrite !lookup_alter in He'.
  destruct (document w !! sel) as [e|] eqn:He;
    [| by repeat case_decide; simplify_eq].
  exists e. split; [reflexivity |]. intros Hnd.
  repeat case_decide; subst; rewrite ?He in He';
    cbn [fmap option_fmap option_map] in He'; simplify_eq;
    repeat first [assumption | apply (classList_toggle_NoDup _ _)
                 | apply setAttribute_NoDup].
Qed.

Lemma toggleMenu_frame_witness :
  present "#sideMenu" sample_page ∧ present "#navCta" sample_page ∧
  ∃ w',
    Navigation.toggleMenu sample_page = Returned tt w' ∧
    rotation_state w' = rotation_state sample_page ∧ console w' = console sample_page ∧
    randomCalls w' = randomCalls sample_page ∧ imageLoads w' = imageLoads sample_page ∧
    (∀ selector, selector ≠ "#sideMenu" → selector ≠ "#navCta" →
       document w' !! selector = document sample_page !! selector) ∧
    (∀ selector,
       text_of selector w' = text_of selector sample_page ∧
       style <$> document w' !! selector = style <$> document sample_page !! selector ∧
       listeners_of selector w' = listeners_of selector sample_page ∧
       anchors_of selector w' = anchors_of selector sample_page) ∧
    (∀ selector token, token ≠ "active" →
       has_class token <$> document w' !! selector
         = has_class token <$> document sample_page !! selector) ∧
    (∀ selector name, name ≠ "aria-expanded" →
       attribute_of selector name w' = attribute_of selector name sample_page) ∧
    (∀ selector e', document w' !! selector = Some e' →
       ∃ e, document sample_page !! selector = Some e
            ∧ (NoDup (classList e) → NoDup (classList e'))).
Proof.
  destruct sample_page_menu_present as [Hs Hn].
  split; [exact Hs |]. split; [exact Hn |].
  exact (toggleMenu_frame sample_page Hs Hn).
Defined.

(** X19.  A click, on the trigger or on a link, never disturbs the word
    rotation: whatever listeners run, the cursor, the handle and the timers
    are as before, no random number is used, no image is requested, and no
    element's text or inline style (the fade's opacity and transition) is
    changed. *)
Theorem clicks_leave_rotation_alone (cfg : Config) (a : Action) (w : World) :
  is_click a = true →
  let w' := exec cfg a w in
  rotation_state w' = rotation_state w ∧
  randomCalls w' = randomCalls w ∧ imageLoads w' = imageLoads w ∧
  ∀ selector,
    text_of selector w' = text_of selector w ∧
    style <$> document w' !! selector = style <$> document w !! selector.
Proof.
  intros Ha.
  set (P := fun v : World =>
         rotation_state v = rotation_state w ∧
         randomCalls v = randomCalls w ∧ imageLoads v = imageLoads w ∧
         ∀ selector,
           text_of selector v = text_of selector w ∧
           style <$> document v !! selector = style <$> document w !! selector).
  assert (Htoggle : keeps P Navigation.toggleMenu).
  { intros v (Hr & Hn & Hi & Hd).
    destruct (toggleMenu_cases v) as [(_ & _ & ->)|[msgs ->]]; do 2 eexists;
      (split; [reflexivity |]); [| exact (conj Hr (conj Hn (conj Hi Hd)))].
    split; [exact Hr |]. split; [exact Hn |]. split; [exact Hi |].
    intros sel. destruct (Hd sel) as [Ht Hs]. split.
    - by rewrite toggled_text.
    - rewrite <- Hs. apply toggled_observe; [| reflexivity].
      intros b e. apply toggle_keeps_fields. }
  assert (HP : P w) by (by repeat split).
  unfold exec. destruct a as [| | |id|el|link|]; try discriminate; simpl.
  - exact (keeps_world_of P _ w (setup_keeps_click P el Htoggle) HP).
  - exact (keeps_world_of P _ w (setup_keeps_click_link P link Htoggle) HP).
Qed.

Lemma clicks_leave_rotation_alone_witness :
  let w := run CONFIG [ActInitApp; ActTimer 1%positive] sample_page in
  let w' := exec CONFIG (ActClick "#navCta") w in
  rotation_state w' = rotation_state w ∧
  randomCalls w' = randomCalls w ∧ imageLoads w' = imageLoads w ∧
  ∀ selector,
    text_of selector w' = text_of selector w ∧
    style <$> document w' !! selector = style <$> document w !! selector.
Proof.
  intros w. apply (clicks_leave_rotation_alone CONFIG (ActClick "#navCta") w). reflexivity.
Defined.

(** ** The bootstrap on real pages *)

(** X20.  [initApp] on a document that has neither the trigger, nor the
    rotating word, nor the hero image: it returns; the document, the menu
    flag, the cursor, the handle and the timers are as before and no random
    number is used; the console gets the three warnings of the lookups, in
    the order of the modules, and no error; the images are still preloaded. *)
Theorem initApp_on_bare_document (cfg : Config) (w : World) :
  document w !! "#navCta" = None →
  document w !! "#rotatingWord" = None →
  document w !! "#heroImg" = None →
  ∃ w',
    initApp cfg w = Returned tt w' ∧
    document w' = document w ∧ isMenuOpen w' = isMenuOpen w ∧
    rotation_state w' = rotation_state w ∧ randomCalls w' = randomCalls w ∧
    console w' = console w ++ [not_found "#navCta"; not_found "#rotatingWord";
                              not_found "#heroImg"] ∧
    imageLoads w' = imageLoads w ++ HERO_IMAGES cfg.
Proof.
  intros Hn Hr Hh.
  set (w3 := warned [not_found "#navCta"; not_found "#rotatingWord"; not_found "#heroImg"] w).
  destruct (forEach_imageLoads (HERO_IMAGES cfg) w3)
    as (w' & Hrun & Hloads & (Hd & Hm & Hc & Hi & Ht & _ & Hrc & _) & Hconsole).
  exists w'. split.
  { assert (H1 : Navigation.init w = Returned tt (warned [not_found "#navCta"] w)).
    { unfold Navigation.init, bind. by rewrite (dollar_missing _ _ Hn). }
    assert (H2 : ∀ v, document v !! "#rotatingWord" = None →
                 WordRotation.start cfg v = Returned tt (warned [not_found "#rotatingWord"] v)).
    { intros v Hv. unfold WordRotation.start, bind. by rewrite (dollar_missing _ _ Hv). }
    assert (H3 : ∀ v, document v !! "#heroImg" = None →
                 HeroImage.init cfg v = Returned tt (warned [not_found "#heroImg"] v)).
    { intros v Hv. unfold HeroImage.init, HeroImage.setRandomImage, bind.
      by rewrite (dollar_missing _ _ Hv). }
    unfold initApp, initApp_with, try_catch, bind.
    rewrite H1, H2 by exact Hr. rewrite H3 by exact Hh.
    rewrite !warned_warned. cbn [app]. unfold preloadImages.
    unfold w3 in Hrun. by rewrite Hrun. }
  unfold rotation_state. simpl in *.
  repeat split; try assumption. by rewrite Hc, Hi, Ht.
Qed.

Lemma initApp_on_bare_document_witness :
  ∃ w',
    initApp CONFIG bare_page = Returned tt w' ∧
    document w' = document bare_page ∧ isMenuOpen w' = isMenuOpen bare_page ∧
    rotation_state w' = rotation_state bare_page ∧
    randomCalls w' = randomCalls bare_page ∧
    console w' = console bare_page ++ [not_found "#navCta"; not_found "#rotatingWord";
                                      not_found "#heroImg"] ∧
    imageLoads w' = imageLoads bare_page ++ HERO_IMAGES CONFIG.
Proof.
  apply (initApp_on_bare_document CONFIG bare_page); reflexivity.
Defined.





(** ** A stopped rotation stays stopped *)

Lemma halted_at_page_blind c : page_blind (halted_at c).
Proof. solve_page_blind. Qed.

Lemma halted_at_step cfg c a :
  restarts a = false → keeps (halted_at c) (perform cfg a).
Proof.
  intros Ha. apply keeps_perform; [apply halted_at_page_blind | congruence | ..].
  - intros _. apply keeps_stop. intros id w [Hf Hc] _. split; [| exact Hc].
    intros id' t Ht. simpl in Ht. apply lookup_delete_Some in Ht as [_ Ht]. by apply (Hf id').
  - intros id _. apply keeps_fire_timer. intros w [Hf Hc].
    rewrite fire_timer_eq. simpl.
    destruct (timers w !! id) as [t|] eqn:Ht; [| by split].
    destruct (Hf id t Ht) as (el & nw & Hcb). rewrite Hcb.
    destruct (repeat t); (split; [| exact Hc]); intros id' t' Ht'; simpl in Ht'.
    + by apply (Hf id').
    + apply lookup_delete_Some in Ht' as [_ Ht']. by apply (Hf id').
Qed.

(** X22.  After every history from the freshly loaded page in which
    [start] is never called while [intervalId] holds a handle, a call of
    [stop] halts the rotation for good: it returns, only fades are left in
    the timer map, and whatever happens next short of a restart (timer
    firings, clicks, further stops) the cursor never moves again. *)
Theorem stop_halts_rotation (cfg : Config) (w0 : World) (history later : list Action) :
  freshly_loaded w0 → guarded cfg history w0 = true →
  forallb (fun a => negb (restarts a)) later = true →
  ∃ w,
    WordRotation.stop (run cfg history w0) = Returned tt w ∧
    only_fades_pending w ∧
    only_fades_pending (run cfg later w) ∧
    currentIndex (run cfg later w) = currentIndex (run cfg history w0).
Proof.
  intros Hfresh Hguard Hlater.
  set (v := run cfg history w0).
  assert (Hwf : timers_wellformed cfg v).
  { apply (run_keeps (timers_wellformed cfg) cfg (fun _ => true));
      [intros a _; apply timers_wellformed_step | apply forallb_all_true |].
    destruct Hfresh as (_ & _ & Hid & Ht). split.
    - intros id t H. rewrite Ht, lookup_empty in H. discriminate.
    - intros id H. congruence. }
  assert (Hrec : recurring_only_in_handle v).
  { apply guarded_recurring_only_in_handle; [| exact Hguard].
    by apply freshly_loaded_recurring_only_in_handle. }
  assert (Hstop : ∃ w, WordRotation.stop v = Returned tt w ∧ halted_at (currentIndex v) w).
  { destruct Hwf as [Hall _].
    destruct (intervalId v) as [id|] eqn:Hid.
    - eexists. split; [by apply stop_running |]. split; [| reflexivity].
      intros id' t Ht. simpl in Ht. apply lookup_delete_Some in Ht as [Hne Ht].
      destruct (Hall id' t Ht) as [->|[nw ->]]; [| by do 2 eexists].
      specialize (Hrec id' _ Ht eq_refl). congruence.
    - eexists. split; [by apply stop_stopped |]. split; [| reflexivity].
      intros id' t Ht. destruct (Hall id' t Ht) as [->|[nw ->]]; [| by do 2 eexists].
      specialize (Hrec id' _ Ht eq_refl). congruence. }
  destruct Hstop as (w & Hrun & Hhalt).
  exists w. split; [exact Hrun |]. split; [apply Hhalt |].
  apply (run_keeps (halted_at (currentIndex v)) cfg (fun a => negb (restarts a)))
    with (actions := later) in Hhalt; [exact Hhalt | | exact Hlater].
  intros a Ha. apply halted_at_step. by destruct (restarts a).
Qed.

Lemma stop_halts_rotation_witness :
  let history := [ActInitApp; ActTimer 1; ActTimer 1]%positive in
  let later := [ActTimer 1; ActTimer 2; ActTimer 3; ActClick "#navCta"; ActStop]%positive in
  ∃ w,
    WordRotation.stop (run CONFIG history sample_page) = Returned tt w ∧
    only_fades_pending w ∧
    only_fades_pending (run CONFIG later w) ∧
    currentIndex (run CONFIG later w) = currentIndex (run CONFIG history sample_page).
Proof.
  intros history later.
  apply (stop_halts_rotation CONFIG sample_page history later).
  - exact sample_page_freshly_loaded.
  - vm_compute. reflexivity.
  - reflexivity.
Defined.

(** ** A full cycle *)

Lemma ticks_firings cfg id ms element k w :
  timers w !! id = Some {| repeat := true; delay := ms; callback := CbRotate element |} →
  firings cfg (replicate k (ActTimer id)) w = k ∧
  timers (run cfg (replicate k (ActTimer id)) w) !! id
    = Some {| repeat := true; delay := ms; callback := CbRotate element |}.
Proof.
  revert w. induction k as [|k IH]; intros w Ht; [by split |].
  assert (Ht' : timers (exec cfg (ActTimer id) w) !! id
                = Some {| repeat := true; delay := ms; callback := CbRotate element |}).
  { unfold exec. simpl. by apply fire_timer_recurring. }
  destruct (IH _ Ht') as [Hf Hk].
  split; [| exact Hk].
  change (firings cfg (replicate (S k) (ActTimer id)) w)
    with ((if is_rotation_firing w (ActTimer id) then 1 else 0)
          + firings cfg (replicate k (ActTimer id)) (exec cfg (ActTimer id) w))%nat.
  rewrite Hf. unfold is_rotation_firing. by rewrite Ht.
Qed.

Lemma replicate_no_restart id k :
  forallb (fun a => negb (restarts a)) (replicate k (ActTimer id)) = true.
Proof. induction k; [reflexivity | exact IHk]. Qed.

(** X23.  The rotation is a cycle through the whole list.  With [N >= 1]
    words, a cursor in [0, N) and the rotation timer active: after [k]
    firings of that timer the cursor is [(cursor + k) mod N]; after [N]
    firings it is back where it was; and every index of the list is the
    cursor after fewer than [N] firings, so every word comes up in each
    cycle. *)
Theorem rotation_cycles_through_all_words (cfg : Config) (w : World)
    (id : positive) (ms : Z) (element : string) :
  let N := Z.of_nat (length (HERO_WORDS cfg)) in
  1 <= N → 0 <= currentIndex w < N →
  timers w !! id = Some {| repeat := true; delay := ms; callback := CbRotate element |} →
  let after k := run cfg (replicate k (ActTimer id)) w in
  (∀ k, currentIndex (after k) = (currentIndex w + Z.of_nat k) mod N) ∧
  currentIndex (after (length (HERO_WORDS cfg))) = currentIndex w ∧
  (∀ j, 0 <= j < N →
     ∃ k, (k < length (HERO_WORDS cfg))%nat ∧ currentIndex (after k) = j).
Proof.
  intros N HN Hc Ht after.
  assert (Hk : ∀ k, currentIndex (after k) = (currentIndex w + Z.of_nat k) mod N).
  { intros k. unfold after.
    rewrite (run_currentIndex cfg _ HN (replicate_no_restart id k) w Hc).
    by destruct (ticks_firings cfg id ms element k w Ht) as [-> _]. }
  split; [exact Hk |]. split.
  - rewrite Hk. change (Z.of_nat (length (HERO_WORDS cfg))) with N.
    replace (currentIndex w + N) with (currentIndex w + 1 * N) by lia.
    rewrite Z_mod_plus_full. by apply Z.mod_small.
  - intros j Hj. exists (Z.to_nat ((j - currentIndex w) mod N)).
    pose proof (Z.mod_pos_bound (j - currentIndex w) N ltac:(lia)) as Hb.
    split; [unfold N in *; lia |].
    rewrite Hk, Z2Nat.id by lia.
    rewrite Zplus_mod_idemp_r.
    replace (currentIndex w + (j - currentIndex w)) with j by lia.
    by apply Z.mod_small.
Qed.

Lemma rotation_cycles_through_all_words_witness :
  let w := exec CONFIG ActStart sample_page in
  let after k := run CONFIG (replicate k (ActTimer 1%positive)) w in
  (∀ k, currentIndex (after k) = (currentIndex w + Z.of_nat k) mod 10) ∧
  currentIndex (after 10%nat) = currentIndex w ∧
  (∀ j, 0 <= j < 10 → ∃ k, (k < 10)%nat ∧ currentIndex (after k) = j).
Proof.
  intros w.
  apply (rotation_cycles_through_all_words CONFIG w 1%positive 3000 "#rotatingWord").
  - simpl. lia.
  - replace (currentIndex w) with 5 by (vm_compute; reflexivity). simpl. lia.
  - vm_compute. reflexivity.
Defined.
